(** * Matching and candidate-search core of the tracklist-to-catalog sync

    A shallow embedding of [app/models.py], [app/match.py] and the search
    cascade of [app/providers/spotify.py], with the properties of the
    specification stated over it.

    Conventions of the embedding:
    - a Python [str] is a [string]; a character is a code point below 256, and
      whitespace and case mapping are Python's on that range;
    - a Python [float] is a binary64 [float] (the kernel's primitive floats,
      rounding to nearest even as CPython does);
    - a Python [int] is a [Z]; [Optional[T]] is [option T];
    - the HTTP session is an oracle from the requests issued so far and the
      current request to the outcome of the [try] body that issues it. *)

From Stdlib Require Import String Ascii List ZArith NArith Bool Lia.
From Stdlib Require Import Floats DecimalString.
Import ListNotations.

Set Warnings "-inexact-float".
Open Scope string_scope.
Open Scope list_scope.

(** String concatenation, kept apart from the append of lists. *)
Infix "+++" := String.append (right associativity, at level 60).

(** ** Python string primitives *)

Module PyStr.

(** [str.isspace] on one character. *)
Definition isspace (c : ascii) : bool :=
  let n := N_of_ascii c in
  (((9 <=? n) && (n <=? 13)) || ((28 <=? n) && (n <=? 32))
   || (n =? 133) || (n =? 160))%N.

Definition is_upper (c : ascii) : bool :=
  let n := N_of_ascii c in
  (((65 <=? n) && (n <=? 90))
   || ((192 <=? n) && (n <=? 222) && negb (n =? 215)))%N.

(** Lower-case letters whose upper-case form is again below 256. *)
Definition is_lower (c : ascii) : bool :=
  let n := N_of_ascii c in
  (((97 <=? n) && (n <=? 122))
   || ((224 <=? n) && (n <=? 254) && negb (n =? 247)))%N.

Definition lower_char (c : ascii) : ascii :=
  if is_upper c then ascii_of_N (N_of_ascii c + 32) else c.

Definition upper_char (c : ascii) : ascii :=
  if is_lower c then ascii_of_N (N_of_ascii c - 32) else c.

Definition is_cased (c : ascii) : bool := is_upper c || is_lower c.

Fixpoint smap (f : ascii -> ascii) (s : string) : string :=
  match s with
  | EmptyString => EmptyString
  | String c s' => String (f c) (smap f s')
  end.

Fixpoint all_chars (p : ascii -> bool) (s : string) : bool :=
  match s with
  | EmptyString => true
  | String c s' => p c && all_chars p s'
  end.

Definition is_empty (s : string) : bool :=
  match s with EmptyString => true | String _ _ => false end.

(** Truth value of a string: [if s:]. *)
Definition truthy (s : string) : bool := negb (is_empty s).

(** [s.lower()]. *)
Definition lower (s : string) : string := smap lower_char s.

(** [s.title()]: a cased character is upper-cased when the character before
    it is not cased, and lower-cased otherwise. *)
Fixpoint title_from (prev_cased : bool) (s : string) : string :=
  match s with
  | EmptyString => EmptyString
  | String c s' =>
      String (if prev_cased then lower_char c else upper_char c)
             (title_from (is_cased c) s')
  end.

Definition title (s : string) : string := title_from false s.

Fixpoint lstrip (s : string) : string :=
  match s with
  | EmptyString => EmptyString
  | String c s' => if isspace c then lstrip s' else s
  end.

Fixpoint rstrip (s : string) : string :=
  match s with
  | EmptyString => EmptyString
  | String c s' =>
      let r := rstrip s' in
      if isspace c && is_empty r then EmptyString else String c r
  end.

(** [s.strip()]. *)
Definition strip (s : string) : string := rstrip (lstrip s).

Definition flush (cur : string) : list string :=
  if is_empty cur then [] else [cur].

Fixpoint split_from (cur : string) (s : string) : list string :=
  match s with
  | EmptyString => flush cur
  | String c s' =>
      if isspace c then flush cur ++ split_from EmptyString s'
      else split_from (cur +++ String c EmptyString) s'
  end.

(** [s.split()]: the maximal runs of non-whitespace characters. *)
Definition split (s : string) : list string := split_from EmptyString s.

(** [sep.join(parts)]. *)
Definition join (sep : string) (parts : list string) : string :=
  String.concat sep parts.

(** [re.sub(r'\s+', ' ', s)]. *)
Fixpoint collapse_from (in_run : bool) (s : string) : string :=
  match s with
  | EmptyString => EmptyString
  | String c s' =>
      if isspace c
      then (if in_run then collapse_from true s'
            else String " " (collapse_from true s'))
      else String c (collapse_from false s')
  end.

Definition collapse_ws (s : string) : string := collapse_from false s.

(** [sub in s]. *)
Fixpoint contains (sub s : string) : bool :=
  String.prefix sub s
  || match s with
     | EmptyString => false
     | String _ s' => contains sub s'
     end.

(** [s.replace(old, new)] for a non-empty [old]: occurrences are taken
    left to right and do not overlap; [skip] counts the characters of the
    occurrence being dropped. *)
Fixpoint replace_from (old new : string) (skip : nat) (s : string) : string :=
  match s with
  | EmptyString => EmptyString
  | String c s' =>
      match skip with
      | S k => replace_from old new k s'
      | O =>
          if String.prefix old s
          then new +++ replace_from old new (String.length old - 1) s'
          else String c (replace_from old new 0 s')
      end
  end.

Definition replace (old new s : string) : string :=
  replace_from old new 0 s.

(** [s.split(sep)] for a non-empty [sep], as its first piece and the rest. *)
Fixpoint split_sep_from (sep : string) (skip : nat) (s : string)
  : string * list string :=
  match s with
  | EmptyString => (EmptyString, [])
  | String c s' =>
      match skip with
      | S k => split_sep_from sep k s'
      | O =>
          if String.prefix sep s
          then let '(h, t) := split_sep_from sep (String.length sep - 1) s' in
               (EmptyString, h :: t)
          else let '(h, t) := split_sep_from sep 0 s' in
               (String c h, t)
      end
  end.

Definition split_sep (sep s : string) : list string :=
  let '(h, t) := split_sep_from sep 0 s in h :: t.

(** [s.split(sep)[0]]. *)
Definition before_first (sep s : string) : string :=
  fst (split_sep_from sep 0 s).

(** [re.split] on a one-character class. *)
Fixpoint split_class_from (p : ascii -> bool) (s : string)
  : string * list string :=
  match s with
  | EmptyString => (EmptyString, [])
  | String c s' =>
      let '(h, t) := split_class_from p s' in
      if p c then (EmptyString, h :: t) else (String c h, t)
  end.

Definition split_class (p : ascii -> bool) (s : string) : list string :=
  let '(h, t) := split_class_from p s in h :: t.

(** [str(n)] for an integer. *)
Definition of_int (n : Z) : string := NilZero.string_of_int (Z.to_int n).

Definition mem (s : string) (l : list string) : bool :=
  existsb (String.eqb s) l.

(** Predicates used in the statements about these primitives. *)

Definition not_space (c : ascii) : bool := negb (isspace c).

Definition word_ok (w : string) : Prop :=
  is_empty w = false /\ all_chars not_space w = true.

Definition starts_not_space (w : string) : bool :=
  match w with
  | EmptyString => false
  | String c _ => not_space c
  end.

Fixpoint ends_not_space (w : string) : bool :=
  match w with
  | EmptyString => false
  | String c EmptyString => not_space c
  | String _ w' => ends_not_space w'
  end.

End PyStr.

(** ** app/models.py *)

Inductive MatchStatus : Type := EXACT | FUZZY | NO_MATCH.

Record Track : Type := mkTrack {
  title : string;
  artist : string;
  album : string;
  duration : option Z;
  external_id : option string;
  source : string;
  isrc : option string;
  mix_name : option string;
  label : option string;
  year : option Z;
  remixers : list string          (* never None after __post_init__ *)
}.

Record MatchResult : Type := mkMatchResult {
  tracklist_track : Track;
  spotify_track : option Track;
  confidence : float;
  status : MatchStatus;
  reason : string
}.

(** Truth values of optional fields: [if x:]. *)
Definition truthy_str (o : option string) : bool :=
  match o with Some s => PyStr.truthy s | None => false end.

Definition truthy_int (o : option Z) : bool :=
  match o with Some n => negb (n =? 0)%Z | None => false end.

(** ** app/match.py *)

Definition common_words : list string :=
  ["the"; "a"; "an"; "and"; "or"; "but"; "in"; "on"; "at"; "to"; "for"; "of";
   "with"; "by"].

Definition normalize_text (text : string) : string :=
  if PyStr.is_empty text then ""
  else
    let text := PyStr.lower text in
    let text := PyStr.collapse_ws (PyStr.strip text) in
    let words := PyStr.split text in
    let words := filter (fun word => negb (PyStr.mem word common_words)) words in
    PyStr.join " " words.

(** [fuzz.ratio] belongs to the rapidfuzz package, outside this repository:
    the scorer and the decision engine take it as a parameter. *)
Section Matching.

Variable ratio : string -> string -> float.

Definition calculate_track_similarity (track1 track2 : Track) : float :=
  let title1 := normalize_text (title track1) in
  let title2 := normalize_text (title track2) in
  let artist1 := normalize_text (artist track1) in
  let artist2 := normalize_text (artist track2) in
  let title_similarity := (ratio title1 title2 / 100)%float in
  let artist_similarity := (ratio artist1 artist2 / 100)%float in
  ((title_similarity * 0.7) + (artist_similarity * 0.3))%float.

(** The track scored in place of the source track: for an extended mix, a
    copy without mix name whose title stops at the first parenthesis. *)
Definition match_track_of (tracklist_track : Track) : Track :=
  match mix_name tracklist_track with
  | Some mix =>
      if PyStr.truthy mix && PyStr.contains "extended" (PyStr.lower mix)
      then
        let base_title := title tracklist_track in
        let base_title :=
          if PyStr.contains "(" base_title
             && PyStr.contains "Extended" base_title
          then PyStr.strip (PyStr.before_first "(" base_title)
          else base_title in
        mkTrack base_title (artist tracklist_track) (album tracklist_track)
                (duration tracklist_track) (external_id tracklist_track)
                (source tracklist_track) (isrc tracklist_track) None
                (label tracklist_track) (year tracklist_track)
                (remixers tracklist_track)
      else tracklist_track
  | None => tracklist_track
  end.

(** One turn of the inner loop over the candidate pool. *)
Definition scan_step (match_track : Track) (best : option Track * float)
           (spotify_track : Track) : option Track * float :=
  let confidence := calculate_track_similarity match_track spotify_track in
  if (snd best <? confidence)%float then (Some spotify_track, confidence)
  else best.

Definition best_candidate (match_track : Track) (spotify_tracks : list Track)
  : option Track * float :=
  fold_left (scan_step match_track) spotify_tracks (None, 0%float).

(** The body of the outer loop: the result appended for one source track. *)
Definition match_one (spotify_tracks : list Track) (min_confidence : float)
           (tracklist_track : Track) : MatchResult :=
  let match_track := match_track_of tracklist_track in
  let '(best_match, best_confidence) :=
    best_candidate match_track spotify_tracks in
  let '(status, best_match) :=
    if (0.95 <=? best_confidence)%float then (EXACT, best_match)
    else if (min_confidence <=? best_confidence)%float then (FUZZY, best_match)
    else (NO_MATCH, None) in
  mkMatchResult tracklist_track best_match best_confidence status
                (match status with
                 | NO_MATCH => "No close match found"
                 | _ => ""
                 end).

Definition find_matches (tracklist_tracks spotify_tracks : list Track)
           (min_confidence : float) : list MatchResult :=
  map (match_one spotify_tracks min_confidence) tracklist_tracks.

End Matching.

(** *** The ratio of rapidfuzz

    [fuzz.ratio] is documented as the normalized Indel similarity in percent:
    with [lcs] the length of a longest common subsequence, the distance is
    [len1 + len2 - 2 * lcs], normalized by [len1 + len2] (0 when both are
    empty), and the ratio is [(1 - normalized distance) * 100]. *)

Fixpoint lcs (s1 : string) : string -> nat :=
  match s1 with
  | EmptyString => fun _ => O
  | String c1 s1' =>
      fix lcs_row (s2 : string) : nat :=
        match s2 with
        | EmptyString => O
        | String c2 s2' =>
            if Ascii.eqb c1 c2 then S (lcs s1' s2')
            else Nat.max (lcs s1' s2) (lcs_row s2')
        end
  end.

Definition float_of_nat (n : nat) : float :=
  PrimFloat.of_uint63 (Uint63.of_Z (Z.of_nat n)).

Definition fuzz_ratio (s1 s2 : string) : float :=
  let maximum := (String.length s1 + String.length s2)%nat in
  let dist := (maximum - 2 * lcs s1 s2)%nat in
  let norm_dist :=
    if Nat.eqb maximum 0 then 0%float
    else (float_of_nat dist / float_of_nat maximum)%float in
  ((1 - norm_dist) * 100)%float.

(** ** app/providers/spotify.py *)

(** *** Regular expressions of the provider

    The patterns used on titles are sequences of these atoms; a literal is
    compared case-insensitively ([re.IGNORECASE]). *)

Inductive atom : Type :=
| Lit (c : ascii)       (* a literal character *)
| Ws0                   (* \s* *)
| Ws1                   (* \s+ *)
| Bracket               (* [\(\[] *)
| Eos.                  (* $ *)

Module Regex.

Definition lit (s : string) : list atom :=
  map Lit (list_ascii_of_string s).

(** Greedy [\s*] followed by [k], giving back characters when [k] fails. *)
Fixpoint ws_star (k : string -> option string) (s : string) : option string :=
  match s with
  | EmptyString => k s
  | String c s' =>
      if PyStr.isspace c
      then match ws_star k s' with
           | Some rest => Some rest
           | None => k s
           end
      else k s
  end.

(** The text left after a match of [p] at the start of [s]. *)
Fixpoint match_here (p : list atom) (s : string) : option string :=
  match p with
  | [] => Some s
  | Lit c :: p' =>
      match s with
      | String a s' =>
          if Ascii.eqb (PyStr.lower_char a) (PyStr.lower_char c)
          then match_here p' s' else None
      | EmptyString => None
      end
  | Ws0 :: p' => ws_star (match_here p') s
  | Ws1 :: p' =>
      match s with
      | String a s' =>
          if PyStr.isspace a then ws_star (match_here p') s' else None
      | EmptyString => None
      end
  | Bracket :: p' =>
      match s with
      | String a s' =>
          if Ascii.eqb a "(" || Ascii.eqb a "["
          then match_here p' s' else None
      | EmptyString => None
      end
  | Eos :: p' =>
      match s with
      | EmptyString => match_here p' s
      | String a EmptyString =>
          if Ascii.eqb a "010" then match_here p' s else None
      | _ => None
      end
  end.

(** [re.sub(p, '', s)] for a pattern that matches no empty text. *)
Fixpoint delete_from (p : list atom) (skip : nat) (s : string) : string :=
  match s with
  | EmptyString => EmptyString
  | String c s' =>
      match skip with
      | S k => delete_from p k s'
      | O =>
          match match_here p s with
          | Some rest =>
              match (String.length s - String.length rest)%nat with
              | S k => delete_from p k s'
              | O => String c (delete_from p 0 s')
              end
          | None => String c (delete_from p 0 s')
          end
      end
  end.

Definition delete (p : list atom) (s : string) : string := delete_from p 0 s.

End Regex.

(** *** The catalog session *)

Record Request : Type := mkRequest {
  req_q : string;
  req_type : string;
  req_limit : Z
}.

(** What the [try] body around a [session.get] produces: [None] when
    anything in it raises (network error, bad status, malformed answer),
    otherwise the tracks built from the items of the answer. *)
Definition Outcome : Type := option (list Track).

Record SpotifyProvider : Type := mkSpotifyProvider {
  access_token : option string;
  enable_duration_filter : bool;
  session : list Request -> Request -> Outcome
}.

(** Computations that issue requests: the log of requests is threaded. *)
Definition Search (A : Type) : Type := list Request -> A * list Request.

Definition ret {A : Type} (a : A) : Search A := fun log => (a, log).

Definition bind {A B : Type} (m : Search A) (k : A -> Search B) : Search B :=
  fun log => let '(a, log') := m log in k a log'.

Notation "x <- m ;; k" := (bind m (fun x => k))
  (at level 61, m at next level, right associativity).

(** The first strategy that returns wins; the later ones do not run. *)
Definition or_else {A : Type} (m1 m2 : Search (option A)) : Search (option A) :=
  fun log =>
    match m1 log with
    | (Some a, log') => (Some a, log')
    | (None, log') => m2 log'
    end.

Infix "<||>" := or_else (at level 62, left associativity).

Definition session_get (self : SpotifyProvider) (query : string) (limit : Z)
  : Search Outcome :=
  fun log =>
    let req := mkRequest query "track" limit in
    (session self log req, log ++ [req]).

Inductive Result : Type :=
| Raise (message : string)
| Return (tracks : list Track).

Definition dq : string := String (ascii_of_nat 34) EmptyString.

Definition quoted (s : string) : string := dq +++ s +++ dq.

Definition non_empty {A : Type} (l : list A) : bool :=
  match l with [] => false | _ :: _ => true end.

(** [mix_name and 'extended' in mix_name.lower()]. *)
Definition is_extended (track : Track) : bool :=
  match mix_name track with
  | Some mix => PyStr.truthy mix && PyStr.contains "extended" (PyStr.lower mix)
  | None => false
  end.

(** [mix_name and mix_name != "Original Mix"], with the mix name. *)
Definition real_mix (track : Track) : option string :=
  match mix_name track with
  | Some mix =>
      if PyStr.truthy mix && negb (String.eqb mix "Original Mix")
      then Some mix else None
  | None => None
  end.

(** [build_title(True)], also the [title_with_mix] of the per-artist step. *)
Definition title_with (track : Track) (mix : string) : string :=
  if PyStr.contains ("(" +++ mix +++ ")") (title track)
     || PyStr.contains ("(" +++ mix) (title track)
  then quoted (title track)
  else quoted (title track +++ " (" +++ mix +++ ")").

Definition sanitize (value : option string) : option string :=
  match value with
  | Some v =>
      if PyStr.truthy v then Some (PyStr.strip (PyStr.replace dq "" v))
      else None
  | None => None
  end.

Fixpoint unique_from (seen : list string) (queries : list string) : list string :=
  match queries with
  | [] => []
  | query :: rest =>
      if PyStr.mem query seen then unique_from seen rest
      else query :: unique_from (query :: seen) rest
  end.

Definition _build_enhanced_queries (track : Track) : list string :=
  let title_with_mix :=
    match real_mix track with
    | Some mix => title_with track mix
    | None => quoted (title track)
    end in
  let title_plain := quoted (title track) in
  let album_name := sanitize (Some (album track)) in
  let label_name := sanitize (label track) in
  let by_artist := " artist:" +++ quoted (artist track) in
  let queries :=
    (match year track with
     | Some y =>
         if negb (y =? 0)%Z then
           [title_with_mix +++ by_artist +++ " year:" +++ PyStr.of_int y;
            title_with_mix +++ by_artist +++ " year:" +++ PyStr.of_int (y - 1)
              +++ "-" +++ PyStr.of_int (y + 1);
            title track +++ " " +++ artist track +++ " year:" +++ PyStr.of_int y]
         else []
     | None => []
     end)
    ++ [title_plain +++ by_artist; title track +++ " " +++ artist track]
    ++ (match real_mix track with Some _ => [title_with_mix] | None => [] end)
    ++ [title_plain]
    ++ map (fun remixer => quoted (title track) +++ " " +++ quoted remixer)
           (remixers track)
    ++ (match album_name with
        | Some a =>
            if PyStr.truthy a then
              (match year track with
               | Some y =>
                   if negb (y =? 0)%Z then
                     [title_plain +++ by_artist +++ " album:" +++ quoted a
                        +++ " year:" +++ PyStr.of_int y]
                   else []
               | None => []
               end)
              ++ [title_plain +++ by_artist +++ " album:" +++ quoted a;
                  "album:" +++ quoted a +++ " " +++ title track]
            else []
        | None => []
        end)
    ++ (match label_name with
        | Some l =>
            if PyStr.truthy l then [title_plain +++ by_artist +++ " " +++ l]
            else []
        | None => []
        end) in
  unique_from [] queries.

Definition length_qualifiers : list string :=
  ["extended"; "edit"; "club"; "club mix"; "radio"; "radio edit"; "dub"; "vip";
   "version"].

Definition _strip_length_qualifiers (mix_name : string) : string :=
  if PyStr.is_empty mix_name then mix_name
  else
    let out :=
      fold_left
        (fun out t => PyStr.replace (PyStr.title t) "" (PyStr.replace t "" out))
        length_qualifiers mix_name in
    let out := PyStr.join " " (PyStr.split out) in
    let out :=
      if PyStr.contains "remix" (PyStr.lower mix_name)
         && negb (PyStr.contains "remix" (PyStr.lower out))
      then PyStr.strip (out +++ " Remix") else out in
    PyStr.strip out.

Definition extended_patterns : list (list atom) :=
  [ [Ws0] ++ Regex.lit "(Extended" ++ [Ws1] ++ Regex.lit "Mix)";
    [Ws0] ++ Regex.lit "(Extended)";
    [Ws0] ++ Regex.lit "(Extended" ++ [Ws1] ++ Regex.lit "Edit)";
    [Ws0] ++ Regex.lit "(Extended" ++ [Ws1] ++ Regex.lit "Version)";
    [Ws0] ++ Regex.lit "(Extended" ++ [Ws1] ++ Regex.lit "Rework)";
    [Ws0] ++ Regex.lit "Extended" ++ [Ws1] ++ Regex.lit "Mix";
    [Ws0] ++ Regex.lit "Extended" ].

Definition _strip_extended_from_title (title : string) : string :=
  if PyStr.is_empty title then title
  else
    let result :=
      fold_left (fun result pattern => Regex.delete pattern result)
                extended_patterns title in
    let result := PyStr.strip (PyStr.collapse_ws result) in
    PyStr.strip (Regex.delete [Ws0; Bracket; Ws0; Eos] result).

Definition _primary_remixer_from_mix (mix_name : string) : option string :=
  if PyStr.is_empty mix_name then None
  else
    let parts := PyStr.strip (PyStr.before_first "Remix" mix_name) in
    if PyStr.truthy parts && (List.length (PyStr.split parts) <=? 4)%nat
    then Some parts else None.

Definition _filter_by_duration (spotify_tracks : list Track)
           (tracklist_track : Track) : list Track :=
  match duration tracklist_track with
  | Some d =>
      if (d =? 0)%Z then spotify_tracks
      else
        let tolerance := 5%Z in
        let min_duration := (d - tolerance)%Z in
        let max_duration := (d + tolerance)%Z in
        let filtered :=
          filter (fun track =>
                    match duration track with
                    | Some td =>
                        negb (td =? 0)%Z && (min_duration <=? td)%Z
                        && (td <=? max_duration)%Z
                    | None => false
                    end) spotify_tracks in
        if non_empty filtered then filtered else spotify_tracks
  | None => spotify_tracks
  end.

(** [[a.strip() for a in re.split(r",|&", artist) if a.strip()]]. *)
Definition split_artists (artist : string) : list string :=
  filter PyStr.truthy
    (map PyStr.strip
       (PyStr.split_class (fun c => Ascii.eqb c "," || Ascii.eqb c "&") artist)).

Definition normalize_title (value : string) : string :=
  let v := PyStr.lower (PyStr.strip value) in
  if PyStr.contains "(" v then PyStr.strip (PyStr.before_first "(" v) else v.

Definition _prefer_exact_title_and_artist (candidates : list Track)
           (tracklist_track : Track) : list Track :=
  let bp_title_core := normalize_title (title tracklist_track) in
  let bp_artists := split_artists (artist tracklist_track) in
  let bp_artists_lower := map PyStr.lower bp_artists in
  filter (fun c =>
            String.eqb (normalize_title (title c)) bp_title_core
            && existsb (fun a => PyStr.contains a (PyStr.lower (artist c)))
                       bp_artists_lower)
         candidates.

Definition _search_by_isrc (self : SpotifyProvider) (isrc : string)
  : Search (list Track) :=
  r <- session_get self ("isrc:" +++ isrc) 1 ;;
  ret (match r with
       | Some tracks => tracks
       | None => []            (* except Exception: return [] *)
       end).

(** The query loops: each query is tried in turn; an exception in the [try]
    body and an answer without usable tracks both lead to the next query. *)
Fixpoint try_queries (self : SpotifyProvider)
         (accept : list Track -> option (list Track)) (queries : list string)
  : Search (option (list Track)) :=
  match queries with
  | [] => ret None
  | query :: rest =>
      r <- session_get self query 50 ;;
      match r with
      | None => try_queries self accept rest
      | Some spotify_tracks =>
          match accept spotify_tracks with
          | Some found => ret (Some found)
          | None => try_queries self accept rest
          end
      end
  end.

(** [if spotify_tracks: return spotify_tracks]. *)
Definition any_results (spotify_tracks : list Track) : option (list Track) :=
  if non_empty spotify_tracks then Some spotify_tracks else None.

(** The body of [if spotify_tracks:] in the loop over the enhanced queries. *)
Definition preferred_or_filtered (self : SpotifyProvider) (track : Track)
           (spotify_tracks : list Track) : option (list Track) :=
  if non_empty spotify_tracks then
    let preferred := _prefer_exact_title_and_artist spotify_tracks track in
    if non_empty preferred then Some preferred
    else
      let use_duration_filter :=
        if is_extended track then false else enable_duration_filter self in
      let filtered_tracks :=
        if use_duration_filter then _filter_by_duration spotify_tracks track
        else spotify_tracks in
      if non_empty filtered_tracks then Some filtered_tracks else None
  else None.

(** The text from the last occurrence of [c] on: [s[s.rfind(c):]]. *)
Fixpoint from_last (c : ascii) (s : string) : option string :=
  match s with
  | EmptyString => None
  | String a s' =>
      match from_last c s' with
      | Some tail => Some tail
      | None => if Ascii.eqb a c then Some s else None
      end
  end.

(** The title as repaired at the start of [search_track]: an unclosed last
    parenthesis is closed and whitespace runs are collapsed. *)
Definition repaired_title (title : string) : string :=
  let normalized_title :=
    match from_last "(" title with
    | Some tail =>
        if negb (PyStr.contains ")" tail) then title +++ ")" else title
    | None => title
    end in
  PyStr.strip (PyStr.collapse_ws normalized_title).

Definition with_title (track : Track) (new_title : string) : Track :=
  mkTrack new_title (artist track) (album track) (duration track)
          (external_id track) (source track) (isrc track) (mix_name track)
          (label track) (year track) (remixers track).

Definition with_mix (track : Track) (new_title : string)
           (new_mix : option string) : Track :=
  mkTrack new_title (artist track) (album track) (duration track)
          (external_id track) (source track) (isrc track) new_mix
          (label track) (year track) (remixers track).

(** Strategy 1: ISRC lookup. *)
Definition isrc_lookup (self : SpotifyProvider) (track : Track)
  : Search (option (list Track)) :=
  match isrc track with
  | Some code =>
      if PyStr.truthy code then
        isrc_results <- _search_by_isrc self code ;;
        ret (if non_empty isrc_results then Some isrc_results else None)
      else ret None
  | None => ret None
  end.

(** Strategy 1.5: the base track of an extended mix, unfiltered. *)
Definition extended_fast_path (self : SpotifyProvider) (track : Track)
  : Search (option (list Track)) :=
  if is_extended track then
    let base_title := _strip_extended_from_title (title track) in
    if negb (String.eqb base_title (title track)) then
      let base_track := with_mix track base_title None in
      try_queries self any_results (_build_enhanced_queries base_track)
    else ret None
  else ret None.

(** Strategy 2: the enhanced queries, with the identity preference and the
    duration filter. *)
Definition enhanced_search (self : SpotifyProvider) (track : Track)
  : Search (option (list Track)) :=
  try_queries self (preferred_or_filtered self track)
              (_build_enhanced_queries track).

(** Fallback A: one query per individual artist. *)
Definition per_artist_fallback (self : SpotifyProvider) (track : Track)
  : Search (option (list Track)) :=
  let individual_artists := split_artists (artist track) in
  let title_plain := quoted (title track) in
  let title_with_mix :=
    match real_mix track with
    | Some mix => Some (title_with track mix)
    | None => None
    end in
  let per_artist_queries :=
    flat_map
      (fun artist_name =>
         (title_plain +++ " artist:" +++ quoted artist_name)
         :: match title_with_mix with
            | Some t => [t +++ " artist:" +++ quoted artist_name]
            | None => []
            end)
      individual_artists in
  try_queries self any_results per_artist_queries.

(** Strategy 2.5: the base track of an extended mix again, by artist. *)
Definition extended_base_retry (self : SpotifyProvider) (track : Track)
  : Search (option (list Track)) :=
  if is_extended track then
    let base_title := _strip_extended_from_title (title track) in
    if negb (String.eqb base_title (title track)) then
      let base_queries :=
        [quoted base_title +++ " artist:" +++ quoted (artist track);
         quoted base_title +++ " " +++ artist track;
         quoted base_title]
        ++ flat_map
             (fun artist_name =>
                [quoted base_title +++ " artist:" +++ quoted artist_name;
                 quoted base_title +++ " " +++ quoted artist_name])
             (split_artists (artist track)) in
      try_queries self any_results base_queries
    else ret None
  else ret None.

(** The retry with the length qualifiers trimmed from the mix name. *)
Definition trimmed_mix_retry (self : SpotifyProvider) (track : Track)
  : Search (option (list Track)) :=
  match mix_name track with
  | Some mix =>
      if PyStr.truthy mix then
        let trimmed := _strip_length_qualifiers mix in
        if negb (String.eqb trimmed mix) then
          let track_fallback := with_mix track (title track) (Some trimmed) in
          let queries2 := _build_enhanced_queries track_fallback in
          let queries2 :=
            match _primary_remixer_from_mix trimmed with
            | Some primary_remixer =>
                queries2
                ++ [quoted (title track) +++ " " +++ quoted primary_remixer]
            | None => queries2
            end in
          try_queries self any_results queries2
        else ret None
      else ret None
  | None => ret None
  end.

(** Fallback B: the title alone, then the title with each artist. *)
Definition last_resort (self : SpotifyProvider) (track : Track)
  : Search (option (list Track)) :=
  let last_resort_queries :=
    quoted (title track)
    :: map (fun artist_name =>
              quoted (title track) +++ " " +++ quoted artist_name)
           (split_artists (artist track)) in
  try_queries self any_results last_resort_queries.

Definition search_track (self : SpotifyProvider) (track : Track)
  : Search Result :=
  if negb (truthy_str (access_token self))
  then ret (Raise "Access token not set")
  else
    let normalized_title := repaired_title (title track) in
    let track :=
      if negb (String.eqb normalized_title (title track))
      then with_title track normalized_title else track in
    found <- (isrc_lookup self track
              <||> extended_fast_path self track
              <||> enhanced_search self track
              <||> per_artist_fallback self track
              <||> extended_base_retry self track
              <||> trimmed_mix_retry self track
              <||> last_resort self track) ;;
    ret (Return (match found with
                 | Some tracks => tracks
                 | None => []
                 end)).

(** *** [search_tracks] *)

(** The loop of [search_tracks]: the candidates of each track are appended to
    those found so far; an exception of [search_track] ends the loop. *)
Fixpoint search_tracks_from (self : SpotifyProvider) (tracks : list Track)
         (all_spotify_tracks : list Track) : Search Result :=
  match tracks with
  | [] => ret (Return all_spotify_tracks)
  | track :: rest =>
      r <- search_track self track ;;
      match r with
      | Raise message => ret (Raise message)
      | Return spotify_tracks =>
          search_tracks_from self rest (all_spotify_tracks ++ spotify_tracks)
      end
  end.

Definition search_tracks (self : SpotifyProvider) (tracks : list Track)
  : Search Result :=
  search_tracks_from self tracks [].

(** *** [add_tracks_to_playlist] *)

Record PostRequest : Type := mkPostRequest {
  post_url : string;
  post_uris : list string
}.

(** The [session.post] of a batch: [true] when the [try] body passes, [false]
    when it raises; the answer may depend on the posts made so far. *)
Definition PostSession : Type := list PostRequest -> PostRequest -> bool.

Definition Posting (A : Type) : Type := list PostRequest -> A * list PostRequest.

Inductive Added : Type :=
| AddRaise (message : string)
| AddReturn (ok : bool).

Definition base_url : string := "https://api.spotify.com/v1".

(** [range(0, stop, step)] for a positive [step]. *)
Definition range_step (stop step : nat) : list nat :=
  map (fun k => (k * step)%nat) (seq 0 ((stop + step - 1) / step)).

(** [[track_ids[i:i + batch_size] for i in range(0, len(track_ids),
    batch_size)]]. *)
Definition batches_of (batch_size : nat) (track_ids : list string)
  : list (list string) :=
  map (fun i => firstn batch_size (skipn i track_ids))
      (range_step (List.length track_ids) batch_size).

Fixpoint post_batches (post : PostSession) (playlist_id : string)
         (batches : list (list string)) : Posting bool :=
  match batches with
  | [] => fun posted => (true, posted)
  | batch :: rest =>
      fun posted =>
        let uris := map (fun track_id => "spotify:track:" +++ track_id) batch in
        let req :=
          mkPostRequest (base_url +++ "/playlists/" +++ playlist_id +++ "/tracks")
                        uris in
        if post posted req
        then post_batches post playlist_id rest (posted ++ [req])
        else (false, posted ++ [req])       (* except Exception: return False *)
  end.

Definition add_tracks_to_playlist (self : SpotifyProvider) (post : PostSession)
           (playlist_id : string) (track_ids : list string) : Posting Added :=
  fun posted =>
    if negb (truthy_str (access_token self))
    then (AddRaise "Access token not set", posted)
    else if negb (non_empty track_ids) then (AddReturn true, posted)
    else
      let batch_size := 100%nat in
      let '(ok, posted') :=
        post_batches post playlist_id (batches_of batch_size track_ids) posted in
      (AddReturn ok, posted').

(** ** sync.py: the track ids queued for the playlist *)

Definition has_status (wanted : MatchStatus) (m : MatchResult) : bool :=
  match wanted, status m with
  | EXACT, EXACT | FUZZY, FUZZY | NO_MATCH, NO_MATCH => true
  | _, _ => false
  end.

(** [if match.spotify_track and match.spotify_track.external_id:
    track_ids.append(match.spotify_track.external_id)]. *)
Definition queued_id (m : MatchResult) : list string :=
  match spotify_track m with
  | Some t =>
      match external_id t with
      | Some id => if PyStr.truthy id then [id] else []
      | None => []
      end
  | None => []
  end.

(** Steps 4 and 6 of [sync_tracklist_practical]: the exact matches are
    queued first, then the fuzzy ones. *)
Definition queued_track_ids (matches : list MatchResult) : list string :=
  let exact_matches := filter (has_status EXACT) matches in
  let fuzzy_matches := filter (has_status FUZZY) matches in
  flat_map queued_id exact_matches ++ flat_map queued_id fuzzy_matches.

(** ** app/models.py: [Track.__str__] *)

Definition track_str (track : Track) : string :=
  artist track +++ " - " +++ title track.

(** ** app/providers/manual_tracklist.py *)

Fixpoint drop (n : nat) (s : string) : string :=
  match n, s with
  | O, _ => s
  | S k, String _ s' => drop k s'
  | S _, EmptyString => EmptyString
  end.

(** The text before and after the first occurrence of a non-empty [sep]. *)
Fixpoint partition (sep s : string) : option (string * string) :=
  match s with
  | EmptyString => None
  | String c s' =>
      if String.prefix sep s then Some (EmptyString, drop (String.length sep) s)
      else match partition sep s' with
           | Some (before, after) => Some (String c before, after)
           | None => None
           end
  end.

(** [s.split(sep, 1)]. *)
Definition split_once (sep s : string) : list string :=
  match partition sep s with
  | Some (before, after) => [before; after]
  | None => [s]
  end.

Definition _extract_mashup_artist_title (text : string) : string * string :=
  ("Mashup", text).

(** [parts = text.split(' - ', 1)] and, when there are two parts, their
    stripped pair. *)
Definition artist_dash_title (text : string) : option (string * string) :=
  match split_once " - " text with
  | [part0; part1] => Some (PyStr.strip part0, PyStr.strip part1)
  | _ => None
  end.

Definition _extract_artist_and_title (text : string) : string * string :=
  match (if PyStr.contains " - " text then artist_dash_title text else None) with
  | Some found => found                                       (* format 1 *)
  | None =>
      if PyStr.contains " vs. " text && PyStr.contains " - " text
      then _extract_mashup_artist_title text                  (* format 2 *)
      else
        match (if PyStr.contains " feat. " text && PyStr.contains " - " text
               then artist_dash_title text else None) with
        | Some found => found                                 (* format 3 *)
        | None => ("Unknown Artist", text)                    (* format 4 *)
        end
  end.

Definition _parse_track_line (line : string) (track_number : Z)
  : option Track :=
  if PyStr.is_empty line || (String.length line <? 3)%nat then None
  else
    let line := PyStr.strip (PyStr.collapse_ws line) in
    let '(artist, title) := _extract_artist_and_title line in
    if PyStr.is_empty artist || PyStr.is_empty title then None
    else Some (mkTrack title artist "" None
                       (Some ("manual_" +++ PyStr.of_int track_number))
                       "manual" None None None None []).

(** * Statements

    The notions the properties below are stated with, and the inputs they
    are tried on. *)

(** The words that [normalize_text] keeps. *)
Definition kept (word : string) : bool :=
  negb (PyStr.mem word common_words).

(** The bands of the specification for a confidence [c]: exact from 0.95
    on, fuzzy from [min_confidence] up to 0.95, no match otherwise. *)
Definition in_exact_band (c : float) : bool := (0.95 <=? c)%float.

Definition in_fuzzy_band (min_confidence c : float) : bool :=
  (min_confidence <=? c)%float && (c <? 0.95)%float.

Definition in_no_match_band (min_confidence c : float) : bool :=
  negb (in_exact_band c) && negb (in_fuzzy_band min_confidence c).

(** What the specification asks of one result, given the source track it
    answers, the pool and the threshold. *)
Definition classified (ratio : string -> string -> float)
           (pool : list Track) (min_confidence : float) (r : MatchResult)
  : Prop :=
  let m := match_track_of (tracklist_track r) in
  (* the confidence is that of the best candidate of the pool *)
  confidence r = snd (best_candidate ratio m pool)
  /\ (forall cand,
         In cand pool ->
         (confidence r <? calculate_track_similarity ratio m cand)%float
         = false)
  /\ (confidence r = 0%float
      \/ exists cand, In cand pool
                     /\ confidence r = calculate_track_similarity ratio m cand)
  (* and the status is read off the band the confidence lies in *)
  /\ (in_exact_band (confidence r) = true ->
      status r = EXACT /\ reason r = "")
  /\ (in_fuzzy_band min_confidence (confidence r) = true ->
      status r = FUZZY /\ reason r = "")
  /\ (in_no_match_band min_confidence (confidence r) = true ->
      status r = NO_MATCH /\ reason r = "No close match found").

(** The tolerance of the specification: both durations are known and lie at
    most 5 seconds apart. *)
Definition within_tolerance (source_track candidate : Track) : bool :=
  match duration source_track, duration candidate with
  | Some d, Some td => ((d - 5 <=? td) && (td <=? d + 5))%Z
  | _, _ => false
  end.

(** The title repair of [search_track] leaves every other field alone. *)
Definition repaired (track : Track) : Track :=
  if negb (String.eqb (repaired_title (title track)) (title track))
  then with_title track (repaired_title (title track)) else track.

(** The request of [_search_by_isrc]. *)
Definition isrc_request (code : string) : Request :=
  mkRequest ("isrc:" +++ code) "track" 1.

(** The provider whose failing calls answer with no items instead. *)
Definition errors_as_empty (self : SpotifyProvider) : SpotifyProvider :=
  mkSpotifyProvider
    (access_token self) (enable_duration_filter self)
    (fun log req =>
       match session self log req with
       | Some tracks => Some tracks
       | None => Some []
       end).

(** The request of a text query. *)
Definition text_query (query : string) : Request :=
  mkRequest query "track" 50.

(** The queries of the strategies after the ISRC lookup, each list in the
    order of its loop. *)
Definition fast_path_queries (track : Track) : list string :=
  if is_extended track then
    let base_title := _strip_extended_from_title (title track) in
    if negb (String.eqb base_title (title track))
    then _build_enhanced_queries (with_mix track base_title None)
    else []
  else [].

Definition per_artist_queries (track : Track) : list string :=
  flat_map
    (fun artist_name =>
       (quoted (title track) +++ " artist:" +++ quoted artist_name)
       :: match real_mix track with
          | Some mix =>
              [title_with track mix +++ " artist:" +++ quoted artist_name]
          | None => []
          end)
    (split_artists (artist track)).

Definition base_retry_queries (track : Track) : list string :=
  if is_extended track then
    let base_title := _strip_extended_from_title (title track) in
    if negb (String.eqb base_title (title track))
    then
      [quoted base_title +++ " artist:" +++ quoted (artist track);
       quoted base_title +++ " " +++ artist track;
       quoted base_title]
      ++ flat_map
           (fun artist_name =>
              [quoted base_title +++ " artist:" +++ quoted artist_name;
               quoted base_title +++ " " +++ quoted artist_name])
           (split_artists (artist track))
    else []
  else [].

Definition trimmed_queries (track : Track) : list string :=
  match mix_name track with
  | Some mix =>
      if PyStr.truthy mix then
        let trimmed := _strip_length_qualifiers mix in
        if negb (String.eqb trimmed mix) then
          _build_enhanced_queries (with_mix track (title track) (Some trimmed))
          ++ match _primary_remixer_from_mix trimmed with
             | Some primary_remixer =>
                 [quoted (title track) +++ " " +++ quoted primary_remixer]
             | None => []
             end
        else []
      else []
  | None => []
  end.

Definition last_resort_queries (track : Track) : list string :=
  quoted (title track)
  :: map (fun artist_name => quoted (title track) +++ " " +++ quoted artist_name)
         (split_artists (artist track)).

(** The requests that [search_track] has in store for a track, in the order
    in which it issues them as long as no answer has tracks: the ISRC lookup
    of a non-empty isrc, then the queries of the base-track fast path, the
    enhanced queries, the per-artist queries, the base-track retry, the
    trimmed-mix retry and the last resort. *)
Definition planned_requests (track : Track) : list Request :=
  let track := repaired track in
  match isrc track with
  | Some code => if PyStr.truthy code then [isrc_request code] else []
  | None => []
  end
  ++ map text_query
       (fast_path_queries track ++ _build_enhanced_queries track
        ++ per_artist_queries track ++ base_retry_queries track
        ++ trimmed_queries track ++ last_resort_queries track).

(** A request together with what the loop that issues it keeps of the
    answer ([None]: on to the next request). *)
Definition Step : Type := (Request * (list Track -> option (list Track)))%type.

Definition text_steps (accept : list Track -> option (list Track))
           (queries : list string) : list Step :=
  map (fun query => (text_query query, accept)) queries.

(** The requests of the cascade with what each strategy keeps. *)
Definition cascade_steps (self : SpotifyProvider) (track : Track) : list Step :=
  match isrc track with
  | Some code =>
      if PyStr.truthy code then [(isrc_request code, any_results)] else []
  | None => []
  end
  ++ text_steps any_results (fast_path_queries track)
  ++ text_steps (preferred_or_filtered self track)
                (_build_enhanced_queries track)
  ++ text_steps any_results (per_artist_queries track)
  ++ text_steps any_results (base_retry_queries track)
  ++ text_steps any_results (trimmed_queries track)
  ++ text_steps any_results (last_resort_queries track).

(** Steps taken one after the other: a call that raises and an answer of
    which nothing is kept both lead to the next step. *)
Fixpoint run_steps (self : SpotifyProvider) (steps : list Step)
  : Search (option (list Track)) :=
  match steps with
  | [] => ret None
  | (req, accept) :: rest =>
      fun log =>
        match session self log req with
        | Some answer =>
            match accept answer with
            | Some found => (Some found, log ++ [req])
            | None => run_steps self rest (log ++ [req])
            end
        | None => run_steps self rest (log ++ [req])
        end
  end.

(** ** Worked inputs *)

Definition plain_track (title artist : string) : Track :=
  mkTrack title artist "" None None "" None None None None [].

Definition strobe : Track := plain_track "Strobe" "deadmau5".

Definition strobe_catalog : Track :=
  mkTrack "Strobe" "deadmau5" "For Lack of a Better Name" (Some 637%Z)
          (Some "3Oa0j5wSr3Z3BmP8Qzqjyj") "spotify" None None None None [].

Definition strobes_other : Track :=
  mkTrack "Strobes" "deadmaus" "Another Album" (Some 200%Z) None "manual"
          (Some "USUM71029260") (Some "Club Mix") (Some "mau5trap")
          (Some 2009%Z) ["Someone"].

Definition track_of_seconds (seconds : Z) : Track :=
  mkTrack "Opus" "Eric Prydz" "" (Some seconds) None "spotify" None None None
          None [].

Definition strobe_with_isrc : Track :=
  mkTrack "Strobe" "deadmau5" "" None None "tracklist" (Some "USUM71029260")
          None None None [].

(** A session given by a table from query text to outcome; a query that is
    not in the table is answered without items. *)
Definition table_session (table : list (string * Outcome))
  : list Request -> Request -> Outcome :=
  fun _ req =>
    match find (fun e => String.eqb (fst e) (req_q req)) table with
    | Some (_, out) => out
    | None => Some []
    end.

Definition isrc_provider : SpotifyProvider :=
  mkSpotifyProvider (Some "token") true
    (table_session [("isrc:USUM71029260", Some [strobe_catalog])]).

(** A session in which every call raises. *)
Definition failing_provider : SpotifyProvider :=
  mkSpotifyProvider (Some "token") true (fun _ _ => None).

Definition opus_extended : Track :=
  mkTrack "Opus (Extended Mix)" "Eric Prydz" "" (Some 480%Z) None "tracklist"
          None (Some "Extended Mix") None None [].

Definition opus_provider : SpotifyProvider :=
  mkSpotifyProvider (Some "token") true
    (table_session
       [(quoted "Opus" +++ " artist:" +++ quoted "Eric Prydz",
         Some [track_of_seconds 402])]).

(** * Statements of the further properties *)

(** [cand] is the first member of [pool] that scores [conf] against [m], and
    [conf] is the highest score: no earlier member scores at least [conf]
    and no later member scores above it. *)
Definition first_maximum (ratio : string -> string -> float) (m : Track)
           (pool : list Track) (cand : Track) (conf : float) : Prop :=
  exists earlier later,
    pool = earlier ++ cand :: later
    /\ conf = calculate_track_similarity ratio m cand
    /\ Forall (fun x => (conf <=? calculate_track_similarity ratio m x)%float
                        = false) earlier
    /\ Forall (fun x => (conf <? calculate_track_similarity ratio m x)%float
                        = false) later.

(** A ratio that tells equal texts from different ones only. *)
Definition exact_ratio (s1 s2 : string) : float :=
  if String.eqb s1 s2 then 100%float else 0%float.

(** What the scan for the best candidate has established after the
    candidates [seen]: without a best match the confidence is still 0.0 and
    nothing seen scores above 0.0; with one, the confidence is positive and
    the best match is the first maximum of what was seen. *)
Definition scanned (ratio : string -> string -> float) (m : Track)
           (seen : list Track) (best : option Track * float) : Prop :=
  match fst best with
  | None =>
      snd best = 0%float
      /\ Forall (fun x => (0 <? calculate_track_similarity ratio m x)%float
                          = false) seen
  | Some cand =>
      (0 <? snd best)%float = true
      /\ first_maximum ratio m seen cand (snd best)
  end.

(** [part] is [whole] with some of its members left out and the others in
    their order. *)
Definition sub_list {A : Type} (part whole : list A) : Prop :=
  exists keep : A -> bool, part = filter keep whole.

(** What a query loop keeps of an answer for [track]: a non-empty sub-list
    of it, which is the answer itself, its candidates with the title and an
    artist of [track], or what the duration filter leaves of it. *)
Definition kept_of (track : Track) (answer tracks : list Track) : Prop :=
  non_empty tracks = true
  /\ sub_list tracks answer
  /\ (tracks = answer
      \/ tracks = _prefer_exact_title_and_artist answer track
      \/ tracks = _filter_by_duration answer track).

(** [tracks] is what was kept of the answer to the last of the requests
    [new], which were issued after the requests [log]. *)
Definition from_last_answer (self : SpotifyProvider) (track : Track)
           (log new : list Request) (tracks : list Track) : Prop :=
  exists earlier req answer,
    new = earlier ++ [req]
    /\ session self (log ++ earlier) req = Some answer
    /\ kept_of track answer tracks.

(** A strategy of the cascade only adds requests to the log, and what it
    finds comes from the answer to its last request. *)
Definition answers_only (self : SpotifyProvider) (track : Track)
           (strategy : Search (option (list Track))) : Prop :=
  forall log found log',
    strategy log = (found, log') ->
    exists new,
      log' = log ++ new
      /\ forall tracks, found = Some tracks ->
                        from_last_answer self track log new tracks.

(** Two runs one after the other, the second on the log of the first: an
    exception of either is the outcome, otherwise the candidates of both. *)
Definition then_search (first second : Search Result) : Search Result :=
  fun log =>
    match first log with
    | (Raise message, log1) => (Raise message, log1)
    | (Return found1, log1) =>
        match second log1 with
        | (Raise message, log2) => (Raise message, log2)
        | (Return found2, log2) => (Return (found1 ++ found2), log2)
        end
    end.

(** The request that [add_tracks_to_playlist] posts for one batch. *)
Definition batch_request (playlist_id : string) (batch : list string)
  : PostRequest :=
  mkPostRequest (base_url +++ "/playlists/" +++ playlist_id +++ "/tracks")
                (map (fun track_id => "spotify:track:" +++ track_id) batch).

(** The posts for [batches], made one after the other after the posts
    [posted], all succeed. *)
Definition posts_pass (post : PostSession) (playlist_id : string)
           (posted : list PostRequest) (batches : list (list string)) : Prop :=
  forall done batch rest,
    batches = done ++ batch :: rest ->
    post (posted ++ map (batch_request playlist_id) done)
         (batch_request playlist_id batch) = true.

(** A search request for tracks with the limit of the text queries. *)
Definition text_request (req : Request) : Prop :=
  req_type req = "track" /\ req_limit req = 50%Z.

(** The requests [new] that [search_track] issues for [track]: text
    requests, after at most one ISRC lookup for the non-empty [isrc] of the
    track at their head. *)
Definition cascade_requests (track : Track) (new : list Request) : Prop :=
  Forall text_request new
  \/ exists code rest,
      isrc track = Some code /\ PyStr.truthy code = true
      /\ new = isrc_request code :: rest /\ Forall text_request rest.

(** A strategy that only adds requests of a given shape to the log. *)
Definition issues (shape : list Request -> Prop)
           (strategy : Search (option (list Track))) : Prop :=
  forall log found log',
    strategy log = (found, log') -> exists new, log' = log ++ new /\ shape new.

(** * Properties *)

(** ** Facts about the string primitives *)

Module PyStrFacts.
Import PyStr.

Ltac each_char c := destruct c as [[] [] [] [] [] [] [] []].

Lemma lower_char_idem (c : ascii) : lower_char (lower_char c) = lower_char c.
Proof. each_char c; reflexivity. Qed.

Lemma lower_idem (s : string) : lower (lower s) = lower s.
Proof.
  unfold lower. induction s as [|c s IH]; simpl; [reflexivity|].
  now rewrite lower_char_idem, IH.
Qed.

Lemma lower_app (a b : string) : lower (a +++ b) = lower a +++ lower b.
Proof.
  unfold lower. induction a as [|c a IH]; simpl; [reflexivity|].
  now rewrite IH.
Qed.

Lemma app_empty_r (s : string) : s +++ "" = s.
Proof. induction s as [|c s IH]; simpl; [reflexivity | now rewrite IH]. Qed.

Lemma app_assoc (a b c : string) : (a +++ b) +++ c = a +++ (b +++ c).
Proof. induction a as [|x a IH]; simpl; [reflexivity | now rewrite IH]. Qed.

Lemma is_empty_true (s : string) : is_empty s = true -> s = "".
Proof. destruct s; simpl; congruence. Qed.

Lemma is_empty_app_char (s : string) (c : ascii) :
  is_empty (s +++ String c "") = false.
Proof. destruct s; reflexivity. Qed.

Lemma all_chars_app (p : ascii -> bool) (a b : string) :
  all_chars p (a +++ b) = all_chars p a && all_chars p b.
Proof.
  induction a as [|c a IH]; simpl; [reflexivity|].
  now rewrite IH, andb_assoc.
Qed.

(** *** [split] sees neither [strip] nor the collapsing of whitespace *)

Lemma split_from_collapse (s : string) :
  forall (cur : string) (b : bool),
    (b = true -> cur = "") ->
    split_from cur (collapse_from b s) = split_from cur s.
Proof.
  induction s as [|c s IH]; intros cur b Hb; simpl; [reflexivity|].
  destruct (isspace c) eqn:Hc.
  - destruct b.
    + rewrite (Hb eq_refl). simpl. now apply IH.
    + simpl. f_equal. now apply IH.
  - simpl. rewrite Hc. apply IH. discriminate.
Qed.

Lemma split_collapse_ws (s : string) : split (collapse_ws s) = split s.
Proof. apply split_from_collapse. discriminate. Qed.

Lemma split_lstrip (s : string) : split (lstrip s) = split s.
Proof.
  unfold split. induction s as [|c s IH]; simpl; [reflexivity|].
  destruct (isspace c) eqn:Hc; simpl; [exact IH | now rewrite Hc].
Qed.

Lemma split_from_rstrip (s : string) :
  forall cur, split_from cur (rstrip s) = split_from cur s.
Proof.
  induction s as [|c s IH]; intros cur; simpl; [reflexivity|].
  destruct (isspace c) eqn:Hc; simpl.
  - destruct (is_empty (rstrip s)) eqn:He; simpl.
    + rewrite <- (IH ""). apply is_empty_true in He. rewrite He. simpl.
      now rewrite List.app_nil_r.
    + rewrite Hc. now rewrite IH.
  - rewrite Hc. apply IH.
Qed.

Lemma split_strip (s : string) : split (strip s) = split s.
Proof. unfold strip, split. rewrite split_from_rstrip. apply split_lstrip. Qed.

(** *** The words of [split] *)

Lemma split_from_words (s : string) :
  forall cur, all_chars not_space cur = true ->
              Forall word_ok (split_from cur s).
Proof.
  assert (Hflush : forall cur, all_chars not_space cur = true ->
                               Forall word_ok (flush cur)).
  { intros cur H. unfold flush. destruct (is_empty cur) eqn:E;
      constructor; [split; assumption | constructor]. }
  induction s as [|c s IH]; intros cur Hcur; simpl.
  - now apply Hflush.
  - destruct (isspace c) eqn:Hc.
    + apply Forall_app. split; [now apply Hflush | now apply IH].
    + apply IH. rewrite all_chars_app, Hcur. simpl.
      unfold not_space. now rewrite Hc.
Qed.

Lemma split_words (s : string) : Forall word_ok (split s).
Proof. now apply split_from_words. Qed.

Lemma split_from_lower (s : string) :
  forall cur, lower cur = cur -> lower s = s ->
              Forall (fun w => lower w = w) (split_from cur s).
Proof.
  assert (Hflush : forall cur, lower cur = cur ->
                               Forall (fun w => lower w = w) (flush cur)).
  { intros cur H. unfold flush. destruct (is_empty cur); repeat constructor.
    exact H. }
  induction s as [|c s IH]; intros cur Hcur Hs; simpl.
  - now apply Hflush.
  - unfold lower in Hs. simpl in Hs. injection Hs as Hc Hs'.
    fold (lower s) in Hs'.
    destruct (isspace c).
    + apply Forall_app. split; [now apply Hflush | now apply IH].
    + apply IH; [|exact Hs'].
      rewrite lower_app, Hcur. unfold lower. simpl. now rewrite Hc.
Qed.

Lemma split_from_word (w : string) :
  forall cur rest, all_chars not_space w = true ->
                   split_from cur (w +++ rest) = split_from (cur +++ w) rest.
Proof.
  induction w as [|c w IH]; intros cur rest Hw; simpl.
  - now rewrite app_empty_r.
  - simpl in Hw. apply andb_prop in Hw as [Hc Hw].
    unfold not_space in Hc. apply negb_true_iff in Hc. rewrite Hc.
    rewrite IH by exact Hw. now rewrite app_assoc.
Qed.

Lemma split_join (ws : list string) :
  Forall word_ok ws -> split (join " " ws) = ws.
Proof.
  unfold split, join.
  induction ws as [|w ws IH]; intros Hws; [reflexivity|].
  inversion Hws as [|? ? [Hne Hsp] Hrest]; subst.
  destruct ws as [|w' ws].
  - simpl. rewrite <- (app_empty_r w) at 1.
    rewrite split_from_word by exact Hsp. simpl.
    unfold flush. now rewrite Hne.
  - change (String.concat " " (w :: w' :: ws))
      with (w +++ " " +++ String.concat " " (w' :: ws)).
    rewrite split_from_word by exact Hsp.
    change (" " +++ String.concat " " (w' :: ws))
      with (String " " (String.concat " " (w' :: ws))).
    cbn [split_from]. change (isspace " ") with true. cbv iota.
    cbn [String.append]. unfold flush. rewrite Hne.
    simpl app. f_equal. now apply IH.
Qed.

Lemma lower_join (ws : list string) :
  Forall (fun w => lower w = w) ws -> lower (join " " ws) = join " " ws.
Proof.
  unfold join.
  induction ws as [|w ws IH]; intros Hws; [reflexivity|].
  inversion Hws as [|? ? Hw Hrest]; subst.
  destruct ws as [|w' ws]; [exact Hw|].
  change (String.concat " " (w :: w' :: ws))
    with (w +++ " " +++ String.concat " " (w' :: ws)).
  rewrite !lower_app, Hw, (IH Hrest). reflexivity.
Qed.

(** *** Containment survives [strip] and [lower] commutes with it *)

Lemma isspace_lower_char (c : ascii) : isspace (lower_char c) = isspace c.
Proof. each_char c; reflexivity. Qed.

Lemma is_empty_lower (s : string) : is_empty (lower s) = is_empty s.
Proof. destruct s; reflexivity. Qed.

Lemma lower_lstrip (s : string) : lower (lstrip s) = lstrip (lower s).
Proof.
  induction s as [|c s IH]; [reflexivity|].
  change (lower (String c s)) with (String (lower_char c) (lower s)).
  cbn [lstrip]. rewrite isspace_lower_char.
  destruct (isspace c); [exact IH | reflexivity].
Qed.

Lemma lower_rstrip (s : string) : lower (rstrip s) = rstrip (lower s).
Proof.
  induction s as [|c s IH]; [reflexivity|].
  change (lower (String c s)) with (String (lower_char c) (lower s)).
  cbn [rstrip]. rewrite isspace_lower_char, <- IH, is_empty_lower.
  destruct (isspace c && is_empty (rstrip s)); reflexivity.
Qed.

Lemma lower_strip (s : string) : lower (strip s) = strip (lower s).
Proof. unfold strip. now rewrite lower_rstrip, lower_lstrip. Qed.

Lemma prefix_cons (a b : ascii) (w t : string) :
  String.prefix (String a w) (String b t) = true ->
  a = b /\ String.prefix w t = true.
Proof.
  cbn [String.prefix]. destruct (Ascii.ascii_dec a b); [now split|discriminate].
Qed.

Lemma prefix_cons_same (a : ascii) (w t : string) :
  String.prefix w t = true -> String.prefix (String a w) (String a t) = true.
Proof.
  intros H. cbn [String.prefix].
  destruct (Ascii.ascii_dec a a); [exact H | contradiction].
Qed.

Lemma prefix_nonempty (w t : string) :
  is_empty w = false -> String.prefix w t = true -> is_empty t = false.
Proof. destruct w, t; simpl; congruence. Qed.

Lemma ends_not_space_nonempty (w : string) :
  ends_not_space w = true -> is_empty w = false.
Proof. destruct w; simpl; congruence. Qed.

Lemma prefix_rstrip (w : string) :
  forall t, ends_not_space w = true -> String.prefix w t = true ->
            String.prefix w (rstrip t) = true.
Proof.
  induction w as [|a w IH]; intros t Hend Hpre; [discriminate|].
  destruct t as [|b t]; [discriminate|].
  apply prefix_cons in Hpre as [<- Hpre].
  destruct w as [|a' w].
  - cbn [ends_not_space] in Hend. unfold not_space in Hend.
    apply negb_true_iff in Hend. cbn [rstrip]. rewrite Hend.
    apply prefix_cons_same. now destruct (rstrip t).
  - assert (Hw : String.prefix (String a' w) (rstrip t) = true)
      by now apply IH.
    cbn [rstrip].
    rewrite (prefix_nonempty (String a' w) (rstrip t) eq_refl Hw),
      andb_false_r.
    now apply prefix_cons_same.
Qed.

Lemma contains_nonempty (w t : string) :
  is_empty w = false -> contains w t = true -> is_empty t = false.
Proof. destruct w, t; simpl; congruence. Qed.

Lemma contains_rstrip (w : string) :
  forall t, ends_not_space w = true -> contains w t = true ->
            contains w (rstrip t) = true.
Proof.
  intros t Hend. induction t as [|b t IH]; intros Hc; [exact Hc|].
  cbn [contains] in Hc. apply orb_true_iff in Hc as [Hpre|Hin].
  - destruct (rstrip (String b t)) eqn:E;
      pose proof (prefix_rstrip w (String b t) Hend Hpre) as H;
      rewrite E in H; cbn [contains]; now rewrite H.
  - specialize (IH Hin). cbn [rstrip].
    rewrite (contains_nonempty w (rstrip t)
               (ends_not_space_nonempty w Hend) IH), andb_false_r.
    cbn [contains]. rewrite IH. apply orb_true_r.
Qed.

Lemma contains_lstrip (w : string) :
  forall t, starts_not_space w = true -> contains w t = true ->
            contains w (lstrip t) = true.
Proof.
  intros t Hstart. induction t as [|b t IH]; intros Hc; [exact Hc|].
  cbn [lstrip]. destruct (isspace b) eqn:Hb; [|exact Hc].
  apply IH. cbn [contains] in Hc. apply orb_true_iff in Hc as [Hpre|Hin];
    [|exact Hin].
  destruct w as [|a w]; [discriminate|].
  apply prefix_cons in Hpre as [-> _].
  cbn [starts_not_space] in Hstart. unfold not_space in Hstart.
  rewrite Hb in Hstart. discriminate.
Qed.

Lemma contains_strip (w t : string) :
  starts_not_space w = true -> ends_not_space w = true ->
  contains w t = true -> contains w (strip t) = true.
Proof.
  intros Hs He Hc. unfold strip.
  apply contains_rstrip; [exact He|]. now apply contains_lstrip.
Qed.

Lemma contains_app_r (w a b : string) :
  contains w b = true -> contains w (a +++ b) = true.
Proof.
  intros H. induction a as [|c a IH]; [exact H|].
  cbn [String.append contains]. rewrite IH. apply orb_true_r.
Qed.

End PyStrFacts.

(** ** The text normalizer *)

Section Normalizer.
Import PyStr PyStrFacts.

(** The words that [normalize_text] joins. *)
Lemma normalize_text_words (text : string) :
  normalize_text text = join " " (filter kept (split (lower text))).
Proof.
  unfold normalize_text. destruct text as [|c text]; [reflexivity|].
  cbn [is_empty]. cbv zeta.
  now rewrite split_collapse_ws, split_strip.
Qed.

Lemma filter_kept_ok (ws : list string) :
  Forall word_ok ws -> Forall word_ok (filter kept ws).
Proof.
  intros H. apply Forall_forall. intros w Hw.
  apply filter_In in Hw as [Hw _].
  rewrite Forall_forall in H. now apply H.
Qed.

Lemma filter_kept_lower (ws : list string) :
  Forall (fun w => lower w = w) ws ->
  Forall (fun w => lower w = w) (filter kept ws).
Proof.
  intros H. apply Forall_forall. intros w Hw.
  apply filter_In in Hw as [Hw _].
  rewrite Forall_forall in H. now apply H.
Qed.

Lemma filter_kept_idem (ws : list string) :
  filter kept (filter kept ws) = filter kept ws.
Proof.
  induction ws as [|w ws IH]; simpl; [reflexivity|].
  destruct (kept w) eqn:E; simpl; [now rewrite E, IH | exact IH].
Qed.

(** C7. The text normalizer is idempotent: normalizing a normalized text
    gives that text back, for every input string. *)
Theorem normalize_text_idempotent (x : string) :
  normalize_text (normalize_text x) = normalize_text x.
Proof.
  rewrite (normalize_text_words x).
  set (ws := filter kept (split (lower x))).
  assert (Hok : Forall word_ok ws) by apply filter_kept_ok, split_words.
  assert (Hlow : Forall (fun w => lower w = w) ws).
  { apply filter_kept_lower, split_from_lower; [reflexivity|].
    apply lower_idem. }
  rewrite normalize_text_words.
  rewrite (lower_join ws Hlow), (split_join ws Hok).
  unfold ws. now rewrite filter_kept_idem.
Qed.

End Normalizer.

(** ** Facts about the comparison of floats *)

Module FloatFacts.

Lemma SFcompare_antisym (x y : spec_float) :
  SFcompare y x = option_map CompOpp (SFcompare x y).
Proof.
  destruct x as [sx|sx| |sx mx ex], y as [sy|sy| |sy my ey]; simpl;
    try destruct sx; try destruct sy; try reflexivity;
    rewrite (Z.compare_antisym ex ey); destruct (ex ?= ey)%Z; simpl;
    try reflexivity;
    rewrite ?(Pos.compare_cont_antisym mx my Eq); reflexivity.
Qed.

Lemma SFcompare_lt_trans (x y z : spec_float) :
  SFcompare x y = Some Lt -> SFcompare y z = Some Lt ->
  SFcompare x z = Some Lt.
Proof.
  assert (Hpos : forall p q r, Pos.compare_cont Eq p q = Lt ->
                               Pos.compare_cont Eq q r = Lt ->
                               Pos.compare_cont Eq p r = Lt).
  { intros p q r. change (Pos.compare_cont Eq) with Pos.compare.
    rewrite !Pos.compare_lt_iff. apply Pos.lt_trans. }
  assert (Hneg : forall p q r, CompOpp (Pos.compare_cont Eq p q) = Lt ->
                               CompOpp (Pos.compare_cont Eq q r) = Lt ->
                               CompOpp (Pos.compare_cont Eq p r) = Lt).
  { intros p q r. change (Pos.compare_cont Eq) with Pos.compare.
    rewrite <- !Pos.compare_antisym, !Pos.compare_lt_iff.
    intros H1 H2. exact (Pos.lt_trans _ _ _ H2 H1). }
  destruct x as [sx|sx| |sx mx ex], y as [sy|sy| |sy my ey],
           z as [sz|sz| |sz mz ez]; simpl;
    try destruct sx; try destruct sy; try destruct sz;
    try congruence;
    destruct (Z.compare_spec ex ey), (Z.compare_spec ey ez),
             (Z.compare_spec ex ez);
    try congruence; try lia; subst; intros Hxy Hyz;
    injection Hxy as Hxy; injection Hyz as Hyz; f_equal; eauto.
Qed.

Lemma ltb_irrefl (x : float) : (x <? x)%float = false.
Proof.
  rewrite ltb_spec. unfold SFltb.
  pose proof (SFcompare_antisym (Prim2SF x) (Prim2SF x)) as H.
  destruct (SFcompare (Prim2SF x) (Prim2SF x)) as [[]|];
    simpl in H; congruence.
Qed.

Lemma ltb_trans (x y z : float) :
  (x <? y)%float = true -> (y <? z)%float = true -> (x <? z)%float = true.
Proof.
  rewrite !ltb_spec. unfold SFltb. intros H1 H2.
  rewrite (SFcompare_lt_trans (Prim2SF x) (Prim2SF y) (Prim2SF z)).
  - reflexivity.
  - destruct (SFcompare (Prim2SF x) (Prim2SF y)) as [[]|]; congruence.
  - destruct (SFcompare (Prim2SF y) (Prim2SF z)) as [[]|]; congruence.
Qed.

(** Where [a <= b] holds, [b < a] does not. *)
Lemma leb_not_ltb (a b : float) :
  (a <=? b)%float = true -> (b <? a)%float = false.
Proof.
  rewrite leb_spec, ltb_spec. unfold SFleb, SFltb.
  rewrite (SFcompare_antisym (Prim2SF a) (Prim2SF b)).
  destruct (SFcompare (Prim2SF a) (Prim2SF b)) as [[]|]; simpl; congruence.
Qed.

(** Two numbers are comparable: where [a <= b] fails, [b < a] holds. *)
Lemma not_leb_ltb (a b : float) :
  SFcompare (Prim2SF a) (Prim2SF b) <> None ->
  (a <=? b)%float = false -> (b <? a)%float = true.
Proof.
  rewrite leb_spec, ltb_spec. unfold SFleb, SFltb.
  rewrite (SFcompare_antisym (Prim2SF a) (Prim2SF b)).
  destruct (SFcompare (Prim2SF a) (Prim2SF b)) as [[]|]; simpl; congruence.
Qed.

(** Between a threshold and 0.95, "not at least 0.95" and "below 0.95"
    say the same: a confidence that some number is at most is a number. *)
Lemma below_exact_threshold (m c : float) :
  (m <=? c)%float = true ->
  (0.95 <=? c)%float = false -> (c <? 0.95)%float = true.
Proof.
  intros Hm. apply not_leb_ltb.
  rewrite leb_spec in Hm. unfold SFleb in Hm.
  change (Prim2SF 0.95) with (S754_finite false 8556839292003942 (-53)).
  destruct (Prim2SF m), (Prim2SF c); simpl in *; congruence.
Qed.

End FloatFacts.

(** ** The similarity scorer and the decision engine *)

Section Decision.

Variable ratio : string -> string -> float.

Local Abbreviation score := (calculate_track_similarity ratio).

(** The scorer reads the title and the artist of its arguments only. *)
Lemma score_reads_title_and_artist (a b : Track) :
  score a b =
  ((ratio (normalize_text (title a)) (normalize_text (title b)) / 100) * 0.7
   + (ratio (normalize_text (artist a)) (normalize_text (artist b)) / 100)
     * 0.3)%float.
Proof. reflexivity. Qed.

(** C10. The similarity score depends on the title and artist fields only:
    two pairs of tracks that agree on the title and the artist of the first
    tracks and on the title and the artist of the second tracks get the
    same score, whatever their other fields are. *)
Theorem score_noninterference (a a' b b' : Track) :
  title a = title a' -> artist a = artist a' ->
  title b = title b' -> artist b = artist b' ->
  score a b = score a' b'.
Proof.
  intros Hta Haa Htb Hab. rewrite !score_reads_title_and_artist.
  now rewrite Hta, Haa, Htb, Hab.
Qed.

(** A symmetric ratio gives a symmetric score. *)
Lemma score_sym_of_ratio_sym :
  (forall s1 s2, ratio s1 s2 = ratio s2 s1) ->
  forall a b, score a b = score b a.
Proof.
  intros Hsym a b. rewrite !score_reads_title_and_artist.
  now rewrite (Hsym (normalize_text (title a))),
              (Hsym (normalize_text (artist a))).
Qed.

(** *** The linear scan for the best candidate *)

Lemma scan_none (m : Track) (pool : list Track) :
  forall best, (fst best = None -> snd best = 0%float) ->
               fst (fold_left (scan_step ratio m) pool best) = None ->
               snd (fold_left (scan_step ratio m) pool best) = 0%float.
Proof.
  induction pool as [|cand pool IH]; intros best Hinv; simpl; [exact Hinv|].
  apply IH. unfold scan_step.
  destruct (snd best <? score m cand)%float; simpl; [discriminate|exact Hinv].
Qed.

Lemma best_candidate_none (m : Track) (pool : list Track) :
  fst (best_candidate ratio m pool) = None ->
  snd (best_candidate ratio m pool) = 0%float.
Proof. apply scan_none. reflexivity. Qed.

Lemma scan_attained (m : Track) (pool : list Track) :
  forall best,
    (forall cand, fst best = Some cand -> snd best = score m cand) ->
    forall cand, fst (fold_left (scan_step ratio m) pool best) = Some cand ->
                 snd (fold_left (scan_step ratio m) pool best) = score m cand
                 /\ (In cand pool \/ fst best = Some cand).
Proof.
  induction pool as [|c pool IH]; intros best Hinv cand Hc; simpl in *.
  - split; [now apply Hinv | now right].
  - destruct (IH (scan_step ratio m best c)) with (cand := cand)
      as [Hs Hin]; [|exact Hc|].
    + unfold scan_step. intros x.
      destruct (snd best <? score m c)%float; simpl; [|apply Hinv].
      intros Hx. now injection Hx as ->.
    + split; [exact Hs|]. destruct Hin as [Hin|Hin]; [now left; right|].
      unfold scan_step in Hin.
      destruct (snd best <? score m c)%float; simpl in Hin;
        [injection Hin as ->; now left; left | now right].
Qed.

(** A best candidate comes from the pool and carries its own score. *)
Lemma best_candidate_attained (m : Track) (pool : list Track) (cand : Track) :
  fst (best_candidate ratio m pool) = Some cand ->
  In cand pool /\ snd (best_candidate ratio m pool) = score m cand.
Proof.
  intros H. destruct (scan_attained m pool (None, 0%float)) with (cand := cand)
    as [Hs [Hin|Hin]]; try assumption; try discriminate.
  now split.
Qed.

Lemma scan_maximal (m : Track) (pool : list Track) :
  forall best cand,
    In cand pool ->
    (snd (fold_left (scan_step ratio m) pool best) <? score m cand)%float
    = false.
Proof.
  assert (Hkeep : forall pool best x,
             (snd best <? x)%float = false ->
             (snd (fold_left (scan_step ratio m) pool best) <? x)%float
             = false).
  { induction pool0 as [|c pool0 IH]; intros best x Hx; simpl; [exact Hx|].
    apply IH. unfold scan_step.
    destruct (snd best <? score m c)%float eqn:Hlt; simpl; [|exact Hx].
    destruct (score m c <? x)%float eqn:Hcx; [|reflexivity].
    now rewrite (FloatFacts.ltb_trans _ _ _ Hlt Hcx) in Hx. }
  induction pool as [|c pool IH]; intros best cand Hin; simpl.
  - destruct Hin.
  - destruct Hin as [->|Hin]; [|now apply IH].
    apply Hkeep. unfold scan_step.
    destruct (snd best <? score m cand)%float eqn:Hlt; simpl;
      [apply FloatFacts.ltb_irrefl | exact Hlt].
Qed.

(** No candidate of the pool scores above the best confidence. *)
Lemma best_candidate_maximal (m : Track) (pool : list Track) (cand : Track) :
  In cand pool ->
  (snd (best_candidate ratio m pool) <? score m cand)%float = false.
Proof. apply scan_maximal. Qed.

(** *** The classification *)

Lemma bands_partition (min_confidence c : float) :
  (in_exact_band c = true /\ in_fuzzy_band min_confidence c = false
   /\ in_no_match_band min_confidence c = false)
  \/ (in_exact_band c = false /\ in_fuzzy_band min_confidence c = true
      /\ in_no_match_band min_confidence c = false)
  \/ (in_exact_band c = false /\ in_fuzzy_band min_confidence c = false
      /\ in_no_match_band min_confidence c = true).
Proof.
  unfold in_no_match_band, in_fuzzy_band, in_exact_band.
  destruct (0.95 <=? c)%float eqn:He.
  - left. rewrite (FloatFacts.leb_not_ltb _ _ He), andb_false_r. auto.
  - destruct ((min_confidence <=? c)%float && (c <? 0.95)%float); auto.
Qed.

(** The code tests "at least 0.95", then "at least [min_confidence]": the
    second test, reached below 0.95 only, is the fuzzy band. *)
Lemma fuzzy_band_as_tested (min_confidence c : float) :
  (0.95 <=? c)%float = false ->
  in_fuzzy_band min_confidence c = (min_confidence <=? c)%float.
Proof.
  intros He. unfold in_fuzzy_band.
  destruct (min_confidence <=? c)%float eqn:Hm; [|reflexivity].
  now rewrite (FloatFacts.below_exact_threshold _ _ Hm He).
Qed.

Lemma match_one_source (pool : list Track) (min_confidence : float)
      (t : Track) :
  tracklist_track (match_one ratio pool min_confidence t) = t.
Proof.
  unfold match_one.
  destruct (best_candidate ratio (match_track_of t) pool) as [b c].
  destruct (0.95 <=? c)%float; [reflexivity|].
  destruct (min_confidence <=? c)%float; reflexivity.
Qed.

Lemma match_one_confidence (pool : list Track) (min_confidence : float)
      (t : Track) :
  confidence (match_one ratio pool min_confidence t)
  = snd (best_candidate ratio (match_track_of t) pool).
Proof.
  unfold match_one.
  destruct (best_candidate ratio (match_track_of t) pool) as [b c].
  destruct (0.95 <=? c)%float; [reflexivity|].
  destruct (min_confidence <=? c)%float; reflexivity.
Qed.

Lemma match_one_classified (pool : list Track) (min_confidence : float)
      (t : Track) :
  classified ratio pool min_confidence (match_one ratio pool min_confidence t).
Proof.
  unfold classified. cbv zeta.
  rewrite match_one_source, match_one_confidence.
  split; [reflexivity|]. split; [apply best_candidate_maximal|].
  split.
  { destruct (fst (best_candidate ratio (match_track_of t) pool)) as [cand|]
      eqn:Hb.
    - right. exists cand. now apply best_candidate_attained.
    - left. now apply best_candidate_none. }
  unfold match_one, in_no_match_band.
  destruct (best_candidate ratio (match_track_of t) pool) as [b c].
  cbn [snd]. unfold in_exact_band.
  destruct (0.95 <=? c)%float eqn:He.
  - assert (Hf : in_fuzzy_band min_confidence c = false).
    { unfold in_fuzzy_band.
      now rewrite (FloatFacts.leb_not_ltb _ _ He), andb_false_r. }
    rewrite Hf. cbn. repeat split; try discriminate; reflexivity.
  - rewrite (fuzzy_band_as_tested _ _ He).
    destruct (min_confidence <=? c)%float; cbn;
      repeat split; try discriminate; reflexivity.
Qed.

(** C1. For every list of source tracks, every candidate pool and every
    [min_confidence], [find_matches] returns one result per source track, in
    the order of the source tracks; the confidence of a result is that of the
    best candidate of the pool, and its status follows from it: exact from
    0.95 on, fuzzy from [min_confidence] up to 0.95, and otherwise no match
    with the reason "No close match found". Every confidence value lies in
    exactly one of the three bands. *)
Theorem find_matches_classifies (tracklist_tracks spotify_tracks : list Track)
        (min_confidence : float) :
  let matches := find_matches ratio tracklist_tracks spotify_tracks
                              min_confidence in
  List.length matches = List.length tracklist_tracks
  /\ map tracklist_track matches = tracklist_tracks
  /\ Forall (classified ratio spotify_tracks min_confidence) matches
  /\ forall c : float,
      (in_exact_band c = true /\ in_fuzzy_band min_confidence c = false
       /\ in_no_match_band min_confidence c = false)
      \/ (in_exact_band c = false /\ in_fuzzy_band min_confidence c = true
          /\ in_no_match_band min_confidence c = false)
      \/ (in_exact_band c = false /\ in_fuzzy_band min_confidence c = false
          /\ in_no_match_band min_confidence c = true).
Proof.
  cbv zeta. unfold find_matches. split; [apply length_map|].
  split.
  { rewrite map_map. rewrite <- (map_id tracklist_tracks) at 2.
    apply map_ext. intros t. apply match_one_source. }
  split; [|intros c; apply bands_partition].
  apply Forall_forall. intros r Hr. apply in_map_iff in Hr as [t [<- _]].
  apply match_one_classified.
Qed.

(** *** Status and candidate *)

Lemma match_one_no_match (pool : list Track) (min_confidence : float)
      (t : Track) :
  status (match_one ratio pool min_confidence t) = NO_MATCH ->
  spotify_track (match_one ratio pool min_confidence t) = None.
Proof.
  unfold match_one.
  destruct (best_candidate ratio (match_track_of t) pool) as [b c].
  destruct (0.95 <=? c)%float; [discriminate|].
  destruct (min_confidence <=? c)%float; [discriminate|reflexivity].
Qed.

Lemma match_one_no_candidate (pool : list Track) (min_confidence : float)
      (t : Track) :
  (min_confidence <=? 0)%float = false ->
  spotify_track (match_one ratio pool min_confidence t) = None ->
  status (match_one ratio pool min_confidence t) = NO_MATCH.
Proof.
  intros Hmin. unfold match_one.
  pose proof (best_candidate_none (match_track_of t) pool) as Hnone.
  destruct (best_candidate ratio (match_track_of t) pool) as [b c].
  cbn [fst snd] in Hnone.
  destruct (0.95 <=? c)%float eqn:He.
  - cbn. intros Hb. rewrite (Hnone Hb) in He. discriminate He.
  - destruct (min_confidence <=? c)%float eqn:Hm; [|reflexivity].
    cbn. intros Hb. rewrite (Hnone Hb) in Hm. congruence.
Qed.

(** C2, as the code has it. A result with status no_match has no candidate,
    for every list of source tracks, every pool and every [min_confidence];
    and unless [min_confidence] is at most 0, a result has status no_match
    exactly when it has no candidate. *)
Theorem no_match_iff_no_candidate (tracklist_tracks spotify_tracks : list Track)
        (min_confidence : float) :
  let matches := find_matches ratio tracklist_tracks spotify_tracks
                              min_confidence in
  Forall (fun r => status r = NO_MATCH -> spotify_track r = None) matches
  /\ ((min_confidence <=? 0)%float = false ->
      Forall (fun r => status r = NO_MATCH <-> spotify_track r = None) matches).
Proof.
  cbv zeta. unfold find_matches. split.
  - apply Forall_forall. intros r Hr. apply in_map_iff in Hr as [t [<- _]].
    apply match_one_no_match.
  - intros Hmin. apply Forall_forall. intros r Hr.
    apply in_map_iff in Hr as [t [<- _]]. split.
    + apply match_one_no_match.
    + now apply match_one_no_candidate.
Qed.

End Decision.

(** ** The ratio of rapidfuzz is symmetric *)

Lemma lcs_cons (c1 c2 : ascii) (s1 s2 : string) :
  lcs (String c1 s1) (String c2 s2)
  = if Ascii.eqb c1 c2 then S (lcs s1 s2)
    else Nat.max (lcs s1 (String c2 s2)) (lcs (String c1 s1) s2).
Proof. reflexivity. Qed.

Lemma lcs_empty_r (s : string) : lcs s "" = O.
Proof. destruct s; reflexivity. Qed.

Lemma lcs_sym (s1 : string) : forall s2, lcs s1 s2 = lcs s2 s1.
Proof.
  induction s1 as [|c1 s1 IH1]; intros s2.
  - now rewrite lcs_empty_r.
  - induction s2 as [|c2 s2 IH2]; [reflexivity|].
    rewrite !lcs_cons, (Ascii.eqb_sym c2 c1).
    destruct (Ascii.eqb c1 c2).
    + now rewrite IH1.
    + rewrite (IH1 (String c2 s2)), IH2. apply Nat.max_comm.
Qed.

Lemma fuzz_ratio_sym (s1 s2 : string) : fuzz_ratio s1 s2 = fuzz_ratio s2 s1.
Proof.
  unfold fuzz_ratio.
  now rewrite (lcs_sym s1 s2), (Nat.add_comm (String.length s1)).
Qed.

(** C8. The similarity scorer is symmetric: for every pair of tracks, the
    score of the first against the second is the score of the second against
    the first. *)
Theorem score_symmetric (a b : Track) :
  calculate_track_similarity fuzz_ratio a b
  = calculate_track_similarity fuzz_ratio b a.
Proof. apply score_sym_of_ratio_sym. exact fuzz_ratio_sym. Qed.

(** ** Worked inputs of the decision engine *)

Lemma score_noninterference_witness :
  calculate_track_similarity fuzz_ratio strobe strobes_other
  = calculate_track_similarity fuzz_ratio strobe_catalog
      (plain_track "Strobes" "deadmaus").
Proof.
  apply (score_noninterference fuzz_ratio strobe strobe_catalog strobes_other
           (plain_track "Strobes" "deadmaus")); reflexivity.
Defined.

(** With [min_confidence = 0.0] and an empty pool the best confidence stays
    at its initial 0.0, which passes the test for fuzzy: the result is fuzzy
    and has no candidate. *)
Lemma fuzzy_without_candidate :
  map (fun r => (status r, spotify_track r, confidence r))
      (find_matches fuzz_ratio [strobe] [] 0%float)
  = [(FUZZY, None, 0%float)].
Proof. vm_compute. reflexivity. Qed.

Lemma no_match_iff_no_candidate_witness :
  (0.8 <=? 0)%float = false
  /\ Forall (fun r => status r = NO_MATCH <-> spotify_track r = None)
            (find_matches fuzz_ratio [strobe; plain_track "x" "y"]
                          [strobe_catalog] 0.8%float).
Proof.
  split; [reflexivity|].
  apply (no_match_iff_no_candidate fuzz_ratio [strobe; plain_track "x" "y"]
           [strobe_catalog] 0.8%float). reflexivity.
Defined.

Example find_matches_exact_and_none :
  map (fun r => (status r, reason r))
      (find_matches fuzz_ratio [strobe; plain_track "x" "y"]
                    [strobe_catalog; strobes_other] 0.8%float)
  = [(EXACT, ""); (NO_MATCH, "No close match found")].
Proof. vm_compute. reflexivity. Qed.

(** ** The duration filter *)

(** A source track of 0 seconds has a duration that is not null, and a
    candidate of 3 seconds lies within 5 seconds of it while one of 100
    seconds does not: yet the filter returns both. *)
Lemma zero_duration_is_not_filtered :
  duration (track_of_seconds 0) = Some 0%Z
  /\ filter (within_tolerance (track_of_seconds 0))
            [track_of_seconds 3; track_of_seconds 100]
     = [track_of_seconds 3]
  /\ _filter_by_duration [track_of_seconds 3; track_of_seconds 100]
                         (track_of_seconds 0)
     = [track_of_seconds 3; track_of_seconds 100].
Proof. repeat split. Qed.

Lemma non_empty_filter_incl {A : Type} (p : A -> bool) (l : list A) :
  incl (if non_empty (filter p l) then filter p l else l) l.
Proof.
  destruct (non_empty (filter p l)); [|apply incl_refl].
  intros x Hx. now apply filter_In in Hx.
Qed.

(** C3, as the code has it. For every non-empty candidate list and every
    source track the duration filter returns a non-empty sub-list of the
    candidates: the candidates unchanged when the duration of the source
    track is null or 0; otherwise exactly the candidates whose duration is
    known, not 0, and within 5 seconds of the source duration, when there
    are any; and the candidates unchanged when there are none. *)
Theorem filter_by_duration_keeps_some (spotify_tracks : list Track)
        (tracklist_track : Track) :
  non_empty spotify_tracks = true ->
  let result := _filter_by_duration spotify_tracks tracklist_track in
  let in_range :=
    filter (fun c => truthy_int (duration c)
                     && within_tolerance tracklist_track c) spotify_tracks in
  non_empty result = true
  /\ incl result spotify_tracks
  /\ (truthy_int (duration tracklist_track) = false ->
      result = spotify_tracks)
  /\ (truthy_int (duration tracklist_track) = true ->
      (non_empty in_range = true -> result = in_range)
      /\ (non_empty in_range = false -> result = spotify_tracks)).
Proof.
  intros Hne. cbv zeta. unfold _filter_by_duration, within_tolerance.
  destruct (duration tracklist_track) as [d|]; cbn [truthy_int].
  2:{ repeat split; try discriminate; auto using incl_refl. }
  destruct (d =? 0)%Z; cbn [negb].
  { repeat split; try discriminate; auto using incl_refl. }
  match goal with
  | |- context [non_empty (filter ?p spotify_tracks)] =>
      set (narrow := p)
  end.
  assert (Hsame : filter (fun c => truthy_int (duration c)
                                   && match duration c with
                                      | Some td =>
                                          ((d - 5 <=? td) && (td <=? d + 5))%Z
                                      | None => false
                                      end) spotify_tracks
                  = filter narrow spotify_tracks).
  { apply filter_ext. intros c. unfold narrow.
    destruct (duration c) as [td|]; cbn [truthy_int]; [|reflexivity].
    now rewrite andb_assoc. }
  rewrite Hsame.
  split.
  { destruct (non_empty (filter narrow spotify_tracks)) eqn:E; assumption. }
  split; [apply non_empty_filter_incl|].
  split; [discriminate|]. intros _.
  split; intros E; now rewrite E.
Qed.

Lemma filter_by_duration_keeps_some_witness :
  non_empty [track_of_seconds 402; track_of_seconds 480;
             track_of_seconds 484] = true
  /\ _filter_by_duration [track_of_seconds 402; track_of_seconds 480;
                          track_of_seconds 484] (track_of_seconds 480)
     = [track_of_seconds 480; track_of_seconds 484].
Proof.
  split; [reflexivity|].
  pose proof (filter_by_duration_keeps_some
                [track_of_seconds 402; track_of_seconds 480;
                 track_of_seconds 484] (track_of_seconds 480) eq_refl) as H.
  cbv zeta in H. destruct H as (_ & _ & _ & H).
  destruct (H eq_refl) as [Hin _]. rewrite (Hin eq_refl). reflexivity.
Defined.

(** ** The query builder *)

Lemma unique_from_keeps (queries : list string) :
  forall seen q, In q queries -> PyStr.mem q seen = false ->
                 In q (unique_from seen queries).
Proof.
  induction queries as [|query rest IH]; intros seen q Hin Hseen;
    [destruct Hin|].
  simpl. destruct (String.eqb_spec q query) as [->|Hneq].
  - rewrite Hseen. now left.
  - destruct Hin as [Heq|Hin]; [congruence|].
    destruct (PyStr.mem query seen).
    + now apply IH.
    + right. apply IH; [exact Hin|].
      unfold PyStr.mem in *. simpl. rewrite Hseen.
      destruct (String.eqb_spec q query); [contradiction|reflexivity].
Qed.

(** C9. For every track, whichever optional fields are missing, the query
    builder returns a non-empty sequence: the quoted title-only query is
    always in it. *)
Theorem build_enhanced_queries_has_title (track : Track) :
  In (quoted (title track)) (_build_enhanced_queries track)
  /\ non_empty (_build_enhanced_queries track) = true.
Proof.
  assert (Hin : In (quoted (title track)) (_build_enhanced_queries track)).
  { unfold _build_enhanced_queries. cbv zeta.
    apply unique_from_keeps; [|reflexivity].
    apply in_or_app. right. apply in_or_app. right.
    apply in_or_app. right. apply in_or_app. left. now left. }
  split; [exact Hin|].
  destruct (_build_enhanced_queries track); [destruct Hin|reflexivity].
Qed.

(** ** The trimming of length qualifiers *)

(** C6 on the code: the qualifiers are removed in lower case and in title
    case only. An upper-case "VIP", the spelling of the docstring of
    [_strip_length_qualifiers], stays, as does "EXTENDED"; the title-case and
    lower-case spellings go. *)
Theorem strip_length_qualifiers_misses_upper_case :
  _strip_length_qualifiers "VIP Mix" = "VIP Mix"
  /\ _strip_length_qualifiers "Vip Mix" = "Mix"
  /\ _strip_length_qualifiers "vip Mix" = "Mix"
  /\ _strip_length_qualifiers "DJ Tennis EXTENDED Remix"
     = "DJ Tennis EXTENDED Remix"
  /\ _strip_length_qualifiers "DJ Tennis Extended Remix" = "DJ Tennis Remix".
Proof. repeat split; vm_compute; reflexivity. Qed.

(** The other half of C6 holds: a mix name that contains "remix" in any
    letter case is trimmed to one that still does. *)
Lemma strip_length_qualifiers_keeps_remix (mix_name : string) :
  PyStr.contains "remix" (PyStr.lower mix_name) = true ->
  PyStr.contains "remix" (PyStr.lower (_strip_length_qualifiers mix_name))
  = true.
Proof.
  intros Hremix. unfold _strip_length_qualifiers.
  destruct (PyStr.is_empty mix_name); [exact Hremix|].
  cbv zeta. rewrite Hremix. cbn [andb].
  set (out := PyStr.join " " (PyStr.split _)).
  destruct (PyStr.contains "remix" (PyStr.lower out)) eqn:Hout; cbn [negb].
  - rewrite PyStrFacts.lower_strip.
    now apply PyStrFacts.contains_strip.
  - rewrite !PyStrFacts.lower_strip.
    do 2 (apply PyStrFacts.contains_strip; [reflexivity|reflexivity|]).
    rewrite PyStrFacts.lower_app. now apply PyStrFacts.contains_app_r.
Qed.

(** ** The retrieval cascade *)

Section Cascade.

Variable self : SpotifyProvider.

Lemma or_else_hit {A : Type} (m1 m2 : Search (option A)) (log log' : list Request)
      (a : A) :
  m1 log = (Some a, log') -> (m1 <||> m2) log = (Some a, log').
Proof. intros H. unfold or_else. now rewrite H. Qed.

Lemma repaired_isrc (track : Track) : isrc (repaired track) = isrc track.
Proof.
  unfold repaired.
  now destruct (negb (String.eqb (repaired_title (title track)) (title track))).
Qed.

Lemma isrc_lookup_hit (track : Track) (log : list Request) (code : string)
      (hits : list Track) :
  isrc track = Some code ->
  PyStr.truthy code = true ->
  session self log (isrc_request code) = Some hits ->
  non_empty hits = true ->
  isrc_lookup self track log = (Some hits, log ++ [isrc_request code]).
Proof.
  intros Hisrc Hcode Hsession Hhits.
  unfold isrc_lookup. rewrite Hisrc, Hcode.
  unfold bind, _search_by_isrc, bind, session_get, ret.
  fold (isrc_request code). rewrite Hsession, Hhits. reflexivity.
Qed.

(** C4. For every track with a populated [isrc] for which the ISRC lookup
    of the catalog returns a non-empty result, [search_track] returns exactly
    those records, unfiltered, and the ISRC request is the only request it
    issues: no query of a later strategy follows. *)
Theorem isrc_hit_short_circuits (track : Track) (log : list Request)
        (code : string) (hits : list Track) :
  truthy_str (access_token self) = true ->
  isrc track = Some code ->
  PyStr.truthy code = true ->
  session self log (isrc_request code) = Some hits ->
  non_empty hits = true ->
  search_track self track log = (Return hits, log ++ [isrc_request code]).
Proof.
  intros Htoken Hisrc Hcode Hsession Hhits.
  unfold search_track. rewrite Htoken. cbn [negb]. cbv zeta.
  fold (repaired track). unfold bind at 1.
  rewrite (or_else_hit _ _ log (log ++ [isrc_request code]) hits);
    [reflexivity|].
  do 5 (apply or_else_hit).
  apply isrc_lookup_hit; try assumption.
  now rewrite repaired_isrc.
Qed.

End Cascade.

(** *** Failing calls *)

Section Failures.

Variable self : SpotifyProvider.

Lemma search_by_isrc_failure (code : string) (log : list Request) :
  _search_by_isrc self code log = _search_by_isrc (errors_as_empty self) code log.
Proof.
  unfold _search_by_isrc, bind, session_get, ret. cbn [session errors_as_empty].
  now destruct (session self log _).
Qed.

Lemma try_queries_failure (accept : list Track -> option (list Track))
      (queries : list string) :
  accept [] = None ->
  forall log, try_queries self accept queries log
              = try_queries (errors_as_empty self) accept queries log.
Proof.
  intros Hempty. induction queries as [|query rest IH]; intros log;
    [reflexivity|].
  cbn [try_queries]. unfold bind, session_get.
  cbn [session errors_as_empty].
  destruct (session self log _) as [tracks|].
  - destruct (accept tracks); [reflexivity | apply IH].
  - rewrite Hempty. apply IH.
Qed.

Lemma or_else_ext {A : Type} (m1 m1' m2 m2' : Search (option A)) :
  (forall log, m1 log = m1' log) -> (forall log, m2 log = m2' log) ->
  forall log, (m1 <||> m2) log = (m1' <||> m2') log.
Proof.
  intros H1 H2 log. unfold or_else. rewrite H1.
  destruct (m1' log) as [[a|] log']; [reflexivity | apply H2].
Qed.

Lemma cascade_failure (track : Track) (log : list Request) :
  search_track self track log = search_track (errors_as_empty self) track log.
Proof.
  unfold search_track. cbn [access_token errors_as_empty].
  destruct (negb (truthy_str (access_token self))); [reflexivity|].
  cbv zeta. fold (repaired track). unfold bind.
  set (t := repaired track).
  assert (H : forall log,
             (isrc_lookup self t <||> extended_fast_path self t
              <||> enhanced_search self t <||> per_artist_fallback self t
              <||> extended_base_retry self t <||> trimmed_mix_retry self t
              <||> last_resort self t) log
             = (isrc_lookup (errors_as_empty self) t
                <||> extended_fast_path (errors_as_empty self) t
                <||> enhanced_search (errors_as_empty self) t
                <||> per_artist_fallback (errors_as_empty self) t
                <||> extended_base_retry (errors_as_empty self) t
                <||> trimmed_mix_retry (errors_as_empty self) t
                <||> last_resort (errors_as_empty self) t) log).
  { repeat apply or_else_ext; intros l.
    - unfold isrc_lookup. destruct (isrc t) as [code|]; [|reflexivity].
      destruct (PyStr.truthy code); [|reflexivity].
      unfold bind. now rewrite search_by_isrc_failure.
    - unfold extended_fast_path. destruct (is_extended t); [|reflexivity].
      destruct (negb _); [|reflexivity].
      now apply try_queries_failure.
    - unfold enhanced_search.
      change (preferred_or_filtered (errors_as_empty self) t)
        with (preferred_or_filtered self t).
      now apply try_queries_failure.
    - unfold per_artist_fallback. cbv zeta. now apply try_queries_failure.
    - unfold extended_base_retry. destruct (is_extended t); [|reflexivity].
      destruct (negb _); [|reflexivity].
      cbv zeta. now apply try_queries_failure.
    - unfold trimmed_mix_retry. destruct (mix_name t) as [mix|]; [|reflexivity].
      destruct (PyStr.truthy mix); [|reflexivity].
      cbv zeta. destruct (negb _); [|reflexivity].
      now apply try_queries_failure.
    - unfold last_resort. cbv zeta. now apply try_queries_failure. }
  now rewrite H.
Qed.

(** *** The cascade goes on after a call without tracks *)

Lemma try_queries_steps (accept : list Track -> option (list Track))
      (queries : list string) :
  forall log, try_queries self accept queries log
              = run_steps self (text_steps accept queries) log.
Proof.
  induction queries as [|query rest IH]; intros log; [reflexivity|].
  cbn [try_queries text_steps map run_steps]. unfold bind, session_get.
  fold (text_query query). fold (text_steps accept rest).
  destruct (session self log (text_query query)) as [answer|]; [|apply IH].
  destruct (accept answer); [reflexivity | apply IH].
Qed.

Lemma run_steps_app (steps1 steps2 : list Step) :
  forall log, run_steps self (steps1 ++ steps2) log
              = (run_steps self steps1 <||> run_steps self steps2) log.
Proof.
  induction steps1 as [|[req accept] rest IH]; intros log; [reflexivity|].
  cbn [app run_steps]. unfold or_else in *. cbn [run_steps].
  destruct (session self log req) as [answer|]; [|apply IH].
  destruct (accept answer); [reflexivity | apply IH].
Qed.

Lemma isrc_lookup_steps (track : Track) (log : list Request) :
  isrc_lookup self track log
  = run_steps self
      match isrc track with
      | Some code =>
          if PyStr.truthy code then [(isrc_request code, any_results)] else []
      | None => []
      end log.
Proof.
  unfold isrc_lookup. destruct (isrc track) as [code|]; [|reflexivity].
  destruct (PyStr.truthy code); [|reflexivity].
  unfold bind, _search_by_isrc, bind, session_get, ret. cbn [run_steps].
  fold (isrc_request code). unfold any_results.
  destruct (session self log (isrc_request code)) as [answer|];
    [|reflexivity].
  now destruct (non_empty answer).
Qed.

Lemma cascade_is_run_steps (track : Track) (log : list Request) :
  (isrc_lookup self track <||> extended_fast_path self track
   <||> enhanced_search self track <||> per_artist_fallback self track
   <||> extended_base_retry self track <||> trimmed_mix_retry self track
   <||> last_resort self track) log
  = run_steps self (cascade_steps self track) log.
Proof.
  assert (Hfast : forall l, extended_fast_path self track l
                            = run_steps self (text_steps any_results
                                                (fast_path_queries track)) l).
  { intros l. rewrite <- try_queries_steps.
    unfold extended_fast_path, fast_path_queries.
    destruct (is_extended track); [|reflexivity].
    cbv zeta. now destruct (negb _). }
  assert (Hbase : forall l, extended_base_retry self track l
                            = run_steps self (text_steps any_results
                                                (base_retry_queries track)) l).
  { intros l. rewrite <- try_queries_steps.
    unfold extended_base_retry, base_retry_queries.
    destruct (is_extended track); [|reflexivity].
    cbv zeta. now destruct (negb _). }
  assert (Htrim : forall l, trimmed_mix_retry self track l
                            = run_steps self (text_steps any_results
                                                (trimmed_queries track)) l).
  { intros l. rewrite <- try_queries_steps.
    unfold trimmed_mix_retry, trimmed_queries.
    destruct (mix_name track) as [mix|]; [|reflexivity].
    destruct (PyStr.truthy mix); [|reflexivity].
    cbv zeta. destruct (negb _); [|reflexivity].
    destruct (_primary_remixer_from_mix _); [reflexivity|].
    now rewrite List.app_nil_r. }
  assert (Hper : forall l, per_artist_fallback self track l
                           = run_steps self (text_steps any_results
                                               (per_artist_queries track)) l).
  { intros l. rewrite <- try_queries_steps.
    unfold per_artist_fallback, per_artist_queries. cbv zeta.
    now destruct (real_mix track). }
  assert (Henh : forall l, enhanced_search self track l
                           = run_steps self
                               (text_steps (preferred_or_filtered self track)
                                           (_build_enhanced_queries track)) l).
  { intros l. now rewrite <- try_queries_steps. }
  assert (Hlast : forall l, last_resort self track l
                            = run_steps self (text_steps any_results
                                                (last_resort_queries track)) l).
  { intros l. now rewrite <- try_queries_steps. }
  unfold cascade_steps. rewrite !List.app_assoc. revert log.
  do 6 (intros log; rewrite run_steps_app; revert log; apply or_else_ext;
        [|assumption]).
  intros log. apply isrc_lookup_steps.
Qed.

Lemma text_steps_requests (accept : list Track -> option (list Track))
      (queries : list string) :
  map fst (text_steps accept queries) = map text_query queries.
Proof.
  unfold text_steps. rewrite map_map. now apply map_ext.
Qed.

Lemma cascade_steps_requests (track : Track) :
  map fst (cascade_steps self (repaired track)) = planned_requests track.
Proof.
  unfold cascade_steps, planned_requests. cbv zeta.
  rewrite !map_app, !text_steps_requests. f_equal.
  destruct (isrc (repaired track)) as [code|]; [|reflexivity].
  now destruct (PyStr.truthy code).
Qed.

Lemma cascade_steps_reject_empty (track : Track) :
  Forall (fun step : Step => snd step [] = None) (cascade_steps self track).
Proof.
  unfold cascade_steps, text_steps.
  repeat (apply Forall_app; split);
    try (apply Forall_forall; intros step Hstep;
         apply in_map_iff in Hstep as (query & <- & _); reflexivity).
  destruct (isrc track) as [code|]; [|constructor].
  destruct (PyStr.truthy code); repeat constructor.
Qed.

(** The requests issued by [run_steps] are a leading part of the planned
    ones; the first is always issued, and so is the one after a request
    whose call raised or whose answer had no items; when every call raised
    or had no items, all the planned requests were issued. *)
Lemma run_steps_goes_on (steps : list Step) :
  Forall (fun step : Step => snd step [] = None) steps ->
  forall log found log',
    run_steps self steps log = (found, log') ->
    exists issued,
      log' = log ++ issued
      /\ issued = firstn (List.length issued) (map fst steps)
      /\ nth_error issued 0 = nth_error (map fst steps) 0
      /\ (forall i req,
             nth_error issued i = Some req ->
             (session self (log ++ firstn i issued) req = None
              \/ session self (log ++ firstn i issued) req = Some []) ->
             nth_error issued (S i) = nth_error (map fst steps) (S i))
      /\ ((forall i req,
              nth_error issued i = Some req ->
              session self (log ++ firstn i issued) req = None
              \/ session self (log ++ firstn i issued) req = Some []) ->
          issued = map fst steps /\ found = None).
Proof.
  induction steps as [|[req accept] rest IH]; intros Hempty log found log' H.
  - injection H as <- <-. exists []. rewrite List.app_nil_r.
    repeat split; intros [|i] r Hr; discriminate Hr.
  - inversion Hempty as [|? ? Hreq Hrest]; subst. cbn [snd] in Hreq.
    cbn [run_steps] in H.
    assert (Hnext : forall found log',
               run_steps self rest (log ++ [req]) = (found, log') ->
               exists issued,
                 log' = log ++ issued
                 /\ issued = firstn (List.length issued)
                                    (map fst ((req, accept) :: rest))
                 /\ nth_error issued 0
                    = nth_error (map fst ((req, accept) :: rest)) 0
                 /\ (forall i r,
                        nth_error issued i = Some r ->
                        (session self (log ++ firstn i issued) r = None
                         \/ session self (log ++ firstn i issued) r = Some []) ->
                        nth_error issued (S i)
                        = nth_error (map fst ((req, accept) :: rest)) (S i))
                 /\ ((forall i r,
                         nth_error issued i = Some r ->
                         session self (log ++ firstn i issued) r = None
                         \/ session self (log ++ firstn i issued) r = Some []) ->
                     issued = map fst ((req, accept) :: rest)
                     /\ found = None)).
    { intros found0 log0 H0.
      destruct (IH Hrest _ _ _ H0)
        as (issued & -> & Hprefix & Hfirst & Hon & Hall).
      exists (req :: issued). rewrite <- List.app_assoc.
      split; [reflexivity|]. cbn [map fst List.length firstn].
      split; [now rewrite <- Hprefix|]. split; [reflexivity|]. split.
      - intros [|i] r Hr Hnone; cbn [nth_error]; [exact Hfirst|].
        cbn [nth_error] in Hr. apply (Hon i r Hr).
        cbn [firstn] in Hnone.
        now rewrite <- List.app_assoc.
      - intros Hnone. destruct Hall as [-> ->]; [|split; reflexivity].
        intros i r Hr. specialize (Hnone (S i) r Hr).
        cbn [firstn] in Hnone. now rewrite <- List.app_assoc. }
    destruct (session self log req) as [answer|] eqn:Hsession;
      [|exact (Hnext _ _ H)].
    destruct (accept answer) as [kept|] eqn:Haccept; [|exact (Hnext _ _ H)].
    injection H as <- <-. exists [req]. split; [reflexivity|].
    split; [reflexivity|]. split; [reflexivity|].
    assert (Hkept : session self (log ++ firstn 0 [req]) req = None
                    \/ session self (log ++ firstn 0 [req]) req = Some [] ->
                    False).
    { cbn [firstn]. rewrite List.app_nil_r, Hsession.
      intros [Hnone|Hnone]; [discriminate|].
      injection Hnone as ->. congruence. }
    split.
    + intros [|i] r Hr Hnone.
      * injection Hr as <-. now destruct Hkept.
      * destruct i; discriminate Hr.
    + intros Hnone. destruct Hkept. now apply Hnone.
Qed.

(** C5. For every track, a catalog call that raises counts as a call
    without candidates and the cascade goes on with the next query or
    strategy: [search_track] returns a (possibly empty) list of candidates,
    the error is not propagated, and the candidates returned and the requests
    issued are those of the run in which every failing call answers with no
    items. The requests issued are a leading part of the planned requests,
    in their order, starting with the first; after a request whose call
    raised (or whose answer had no items) the next planned request is issued
    as well, whether it belongs to the same strategy or to the next, so that
    a failing call is the last one only when no planned request is left; and
    when every call raised or had no items, every planned request was issued
    and the result is the empty list. *)
Theorem failing_calls_yield_no_candidates (track : Track)
        (log : list Request) :
  truthy_str (access_token self) = true ->
  (exists tracks log',
      search_track self track log = (Return tracks, log'))
  /\ search_track self track log
     = search_track (errors_as_empty self) track log
  /\ exists issued,
      snd (search_track self track log) = log ++ issued
      /\ issued = firstn (List.length issued) (planned_requests track)
      /\ nth_error issued 0 = nth_error (planned_requests track) 0
      /\ (forall i req,
             nth_error issued i = Some req ->
             (session self (log ++ firstn i issued) req = None
              \/ session self (log ++ firstn i issued) req = Some []) ->
             nth_error issued (S i)
             = nth_error (planned_requests track) (S i))
      /\ ((forall i req,
              nth_error issued i = Some req ->
              session self (log ++ firstn i issued) req = None
              \/ session self (log ++ firstn i issued) req = Some []) ->
          issued = planned_requests track
          /\ fst (search_track self track log) = Return []).
Proof.
  intros Htoken.
  assert (Hrun : search_track self track log
                 = let '(found, log') :=
                     run_steps self (cascade_steps self (repaired track)) log in
                   (Return (match found with
                            | Some tracks => tracks
                            | None => []
                            end), log')).
  { unfold search_track. rewrite Htoken. cbn [negb]. cbv zeta.
    fold (repaired track). unfold bind at 1.
    now rewrite cascade_is_run_steps. }
  split; [|split; [apply cascade_failure|]].
  - rewrite Hrun.
    destruct (run_steps self (cascade_steps self (repaired track)) log)
      as [found log'].
    now exists (match found with Some tracks => tracks | None => [] end), log'.
  - rewrite Hrun.
    pose proof (run_steps_goes_on (cascade_steps self (repaired track))
                  (cascade_steps_reject_empty (repaired track)) log) as Hon.
    destruct (run_steps self (cascade_steps self (repaired track)) log)
      as [found log'].
    destruct (Hon _ _ eq_refl) as (issued & -> & Hprefix & Hfirst & Hnext & Hall).
    rewrite cascade_steps_requests in Hprefix, Hfirst, Hnext, Hall.
    exists issued. cbn [snd fst].
    split; [reflexivity|]. split; [exact Hprefix|]. split; [exact Hfirst|].
    split; [exact Hnext|].
    intros Hnone. now destruct (Hall Hnone) as [-> ->].
Qed.

End Failures.

(** ** Worked inputs of the cascade *)

(** Scenario A: the ISRC hit is returned and no other call is made. *)
Lemma isrc_hit_short_circuits_witness :
  search_track isrc_provider strobe_with_isrc []
  = (Return [strobe_catalog], [isrc_request "USUM71029260"]).
Proof.
  apply (isrc_hit_short_circuits isrc_provider strobe_with_isrc []
           "USUM71029260" [strobe_catalog]); reflexivity.
Defined.

Lemma failing_calls_yield_no_candidates_witness :
  (exists tracks log',
      search_track failing_provider strobe_with_isrc []
      = (Return tracks, log'))
  /\ search_track failing_provider strobe_with_isrc []
     = search_track (errors_as_empty failing_provider) strobe_with_isrc []
  /\ exists issued,
      snd (search_track failing_provider strobe_with_isrc []) = [] ++ issued
      /\ issued = firstn (List.length issued)
                         (planned_requests strobe_with_isrc)
      /\ nth_error issued 0 = nth_error (planned_requests strobe_with_isrc) 0
      /\ (forall i req,
             nth_error issued i = Some req ->
             (session failing_provider ([] ++ firstn i issued) req = None
              \/ session failing_provider ([] ++ firstn i issued) req
                 = Some []) ->
             nth_error issued (S i)
             = nth_error (planned_requests strobe_with_isrc) (S i))
      /\ ((forall i req,
              nth_error issued i = Some req ->
              session failing_provider ([] ++ firstn i issued) req = None
              \/ session failing_provider ([] ++ firstn i issued) req
                 = Some []) ->
          issued = planned_requests strobe_with_isrc
          /\ fst (search_track failing_provider strobe_with_isrc [])
             = Return []).
Proof.
  apply (failing_calls_yield_no_candidates failing_provider strobe_with_isrc []).
  reflexivity.
Defined.

(** With every call failing the whole cascade still runs: the ISRC lookup,
    the three enhanced queries, the per-artist query and the two last-resort
    queries are issued, and the result is the empty list. *)
Example all_calls_failing :
  let '(result, log) := search_track failing_provider strobe_with_isrc [] in
  result = Return []
  /\ map req_q log
     = ["isrc:USUM71029260";
        quoted "Strobe" +++ " artist:" +++ quoted "deadmau5";
        "Strobe deadmau5";
        quoted "Strobe";
        quoted "Strobe" +++ " artist:" +++ quoted "deadmau5";
        quoted "Strobe";
        quoted "Strobe" +++ " " +++ quoted "deadmau5"].
Proof. vm_compute. split; reflexivity. Qed.

(** Scenario B: the base track of an extended mix is accepted by the fast
    path although its duration is far from that of the source track. *)
Example extended_fast_path_ignores_duration :
  search_track opus_provider opus_extended []
  = (Return [track_of_seconds 402],
     [mkRequest (quoted "Opus" +++ " artist:" +++ quoted "Eric Prydz")
                "track" 50]).
Proof. vm_compute. reflexivity. Qed.

(** Scenario C: the identity preference accepts a reordered artist string. *)
Example prefer_reordered_artists :
  _prefer_exact_title_and_artist
    [plain_track "1973" "Colyn, Sultan + Shepard"]
    (plain_track "1973" "Sultan + Shepard, Colyn")
  = [plain_track "1973" "Colyn, Sultan + Shepard"].
Proof. vm_compute. reflexivity. Qed.

(** * Further properties *)

(** ** More on the comparison of floats *)

Module FloatOrder.

(** A float is a number when it compares with itself. *)
Definition is_number (x : float) : bool := (x <=? x)%float.

Definition sf_le (x y : spec_float) : Prop :=
  SFcompare x y = Some Lt \/ SFcompare x y = Some Eq.

Lemma SFcompare_lt_le_trans (x y z : spec_float) :
  SFcompare x y = Some Lt -> sf_le y z -> SFcompare x z = Some Lt.
Proof.
  assert (Hpos : forall p q r, Pos.compare_cont Eq p q = Lt ->
                               Pos.compare_cont Eq q r = Lt ->
                               Pos.compare_cont Eq p r = Lt).
  { intros p q r. change (Pos.compare_cont Eq) with Pos.compare.
    rewrite !Pos.compare_lt_iff. apply Pos.lt_trans. }
  assert (Hneg : forall p q r, CompOpp (Pos.compare_cont Eq p q) = Lt ->
                               CompOpp (Pos.compare_cont Eq q r) = Lt ->
                               CompOpp (Pos.compare_cont Eq p r) = Lt).
  { intros p q r. change (Pos.compare_cont Eq) with Pos.compare.
    rewrite <- !Pos.compare_antisym, !Pos.compare_lt_iff.
    intros H1 H2. exact (Pos.lt_trans _ _ _ H2 H1). }
  assert (Hopp : forall c, CompOpp c = Eq -> c = Eq) by (now intros []).
  unfold sf_le.
  destruct x as [sx|sx| |sx mx ex], y as [sy|sy| |sy my ey],
           z as [sz|sz| |sz mz ez]; simpl;
    try destruct sx; try destruct sy; try destruct sz;
    try (intros ? [?|?]; congruence);
    destruct (Z.compare_spec ex ey), (Z.compare_spec ey ez),
             (Z.compare_spec ex ez);
    try (intros ? [?|?]; congruence); try lia; subst;
    intros Hxy [Hyz|Hyz]; injection Hxy as Hxy; injection Hyz as Hyz;
    f_equal; eauto;
    try (apply Hopp in Hyz); apply Pos.compare_eq in Hyz; subst; assumption.
Qed.

Lemma SFcompare_eq_le_trans (x y z : spec_float) :
  SFcompare x y = Some Eq -> sf_le y z -> sf_le x z.
Proof.
  assert (Hopp : forall c, CompOpp c = Eq -> c = Eq) by (now intros []).
  unfold sf_le.
  destruct x as [sx|sx| |sx mx ex], y as [sy|sy| |sy my ey],
           z as [sz|sz| |sz mz ez]; simpl;
    try destruct sx; try destruct sy; try destruct sz;
    try (intros ? [?|?]; first [congruence | now auto]);
    destruct (Z.compare_spec ex ey);
    try (intros ? [?|?]; congruence); subst;
    intros Hxy Hyz; injection Hxy as Hxy;
    try (apply Hopp in Hxy); apply Pos.compare_eq in Hxy; subst; exact Hyz.
Qed.

Lemma ltb_leb_trans (x y z : float) :
  (x <? y)%float = true -> (y <=? z)%float = true -> (x <? z)%float = true.
Proof.
  rewrite !ltb_spec, leb_spec. unfold SFltb, SFleb. intros H1 H2.
  rewrite (SFcompare_lt_le_trans (Prim2SF x) (Prim2SF y) (Prim2SF z)).
  - reflexivity.
  - destruct (SFcompare (Prim2SF x) (Prim2SF y)) as [[]|]; congruence.
  - unfold sf_le.
    destruct (SFcompare (Prim2SF y) (Prim2SF z)) as [[]|]; auto; discriminate.
Qed.

Lemma leb_trans (x y z : float) :
  (x <=? y)%float = true -> (y <=? z)%float = true -> (x <=? z)%float = true.
Proof.
  rewrite !leb_spec. unfold SFleb. intros H1 H2.
  assert (Hyz : sf_le (Prim2SF y) (Prim2SF z)).
  { unfold sf_le.
    destruct (SFcompare (Prim2SF y) (Prim2SF z)) as [[]|]; auto; discriminate. }
  destruct (SFcompare (Prim2SF x) (Prim2SF y)) as [[]|] eqn:Hxy;
    try discriminate.
  - destruct (SFcompare_eq_le_trans _ _ _ Hxy Hyz) as [H|H]; now rewrite H.
  - now rewrite (SFcompare_lt_le_trans _ _ _ Hxy Hyz).
Qed.

Lemma ltb_leb (x y : float) :
  (x <? y)%float = true -> (x <=? y)%float = true.
Proof.
  rewrite ltb_spec, leb_spec. unfold SFltb, SFleb.
  destruct (SFcompare (Prim2SF x) (Prim2SF y)) as [[]|]; congruence.
Qed.

Lemma ltb_number_r (x y : float) : (x <? y)%float = true -> is_number y = true.
Proof.
  unfold is_number. rewrite ltb_spec, leb_spec. unfold SFltb, SFleb.
  destruct (Prim2SF x) as [sx|sx| |sx mx ex], (Prim2SF y) as [sy|sy| |sy my ey];
    simpl; try destruct sx; try destruct sy; try congruence; intros _;
    rewrite Z.compare_refl;
    change (Pos.compare_cont Eq my my) with (Pos.compare my my);
    now rewrite Pos.compare_refl.
Qed.

(** Two numbers compare: where [x < y] fails, [y <= x] holds. *)
Lemma numbers_compare (x y : float) :
  is_number x = true -> is_number y = true ->
  (x <? y)%float = false -> (y <=? x)%float = true.
Proof.
  unfold is_number. rewrite ltb_spec, !leb_spec. unfold SFltb, SFleb.
  rewrite (FloatFacts.SFcompare_antisym (Prim2SF x) (Prim2SF y)).
  destruct (Prim2SF x) as [sx|sx| |sx mx ex], (Prim2SF y) as [sy|sy| |sy my ey];
    simpl; try congruence;
    try destruct sx; try destruct sy; try congruence;
    intros _ _; try reflexivity; try congruence;
    destruct (ex ?= ey)%Z; try congruence;
    destruct (Pos.compare_cont Eq mx my); simpl; congruence.
Qed.

End FloatOrder.

(** ** More on the decision engine *)

Section Scan.

Variable ratio : string -> string -> float.
Variable m : Track.

Local Abbreviation score := (calculate_track_similarity ratio m).

Lemma scanned_step (seen : list Track) (best : option Track * float)
      (x : Track) :
  scanned ratio m seen best ->
  scanned ratio m (seen ++ [x]) (scan_step ratio m best x).
Proof.
  destruct best as [[cand|] conf]; unfold scanned, scan_step; cbn [fst snd].
  - intros (Hpos & earlier & later & -> & Hconf & Hearlier & Hlater).
    destruct (conf <? score x)%float eqn:Hlt; cbn [fst snd].
    + split; [exact (FloatFacts.ltb_trans _ _ _ Hpos Hlt)|].
      exists (earlier ++ cand :: later), []. split; [reflexivity|].
      split; [reflexivity|]. split; [|constructor].
      apply Forall_app. split; [|constructor].
      * eapply Forall_impl; [|exact Hearlier]. cbv beta. intros y Hy.
        destruct (score x <=? score y)%float eqn:Hxy; [|reflexivity].
        pose proof (FloatOrder.ltb_leb_trans _ _ _ Hlt Hxy) as H.
        apply FloatOrder.ltb_leb in H. congruence.
      * rewrite <- Hconf.
        destruct (score x <=? conf)%float eqn:Hxc; [|reflexivity].
        pose proof (FloatFacts.leb_not_ltb _ _ Hxc). congruence.
      * eapply Forall_impl; [|exact Hlater]. cbv beta. intros y Hy.
        destruct (score x <=? score y)%float eqn:Hxy; [|reflexivity].
        pose proof (FloatOrder.ltb_leb_trans _ _ _ Hlt Hxy). congruence.
    + split; [exact Hpos|].
      exists earlier, (later ++ [x]). rewrite <- List.app_assoc.
      split; [reflexivity|]. split; [exact Hconf|]. split; [exact Hearlier|].
      apply Forall_app. split; [exact Hlater|]. now constructor.
  - intros [-> Hseen].
    destruct (0 <? score x)%float eqn:Hlt; cbn [fst snd].
    + split; [exact Hlt|].
      exists seen, []. split; [reflexivity|]. split; [reflexivity|].
      split; [|constructor].
      eapply Forall_impl; [|exact Hseen]. cbv beta. intros y Hy.
      destruct (score x <=? score y)%float eqn:Hxy; [|reflexivity].
      pose proof (FloatOrder.ltb_leb_trans _ _ _ Hlt Hxy). congruence.
    + split; [reflexivity|].
      apply Forall_app. split; [exact Hseen|]. now constructor.
Qed.

Lemma scanned_fold (pool : list Track) :
  forall seen best,
    scanned ratio m seen best ->
    scanned ratio m (seen ++ pool) (fold_left (scan_step ratio m) pool best).
Proof.
  induction pool as [|x pool IH]; intros seen best H; simpl.
  - now rewrite List.app_nil_r.
  - change (x :: pool) with ([x] ++ pool). rewrite List.app_assoc.
    apply IH. now apply scanned_step.
Qed.

Lemma best_candidate_scanned (pool : list Track) :
  scanned ratio m pool (best_candidate ratio m pool).
Proof.
  apply (scanned_fold pool [] (None, 0%float)).
  split; [reflexivity | constructor].
Qed.

End Scan.

Section DecisionMore.

Variable ratio : string -> string -> float.

Local Abbreviation score := (calculate_track_similarity ratio).

Lemma match_one_candidate (pool : list Track) (min_confidence : float)
      (t : Track) (cand : Track) :
  spotify_track (match_one ratio pool min_confidence t) = Some cand ->
  fst (best_candidate ratio (match_track_of t) pool) = Some cand.
Proof.
  unfold match_one.
  destruct (best_candidate ratio (match_track_of t) pool) as [b c].
  destruct (0.95 <=? c)%float; [now cbn|].
  destruct (min_confidence <=? c)%float; [now cbn|discriminate].
Qed.

(** X1. When a result of [find_matches] carries a candidate, its confidence
    is positive and the candidate is the first member of the pool that attains
    it: no earlier member of the pool scores as high, none scores higher. *)
Theorem find_matches_first_maximum (tracklist_tracks spotify_tracks : list Track)
        (min_confidence : float) :
  Forall (fun r =>
            forall cand,
              spotify_track r = Some cand ->
              (0 <? confidence r)%float = true
              /\ first_maximum ratio (match_track_of (tracklist_track r))
                               spotify_tracks cand (confidence r))
         (find_matches ratio tracklist_tracks spotify_tracks min_confidence).
Proof.
  unfold find_matches. apply Forall_forall. intros r Hr.
  apply in_map_iff in Hr as [t [<- _]]. intros cand Hcand.
  rewrite match_one_source, match_one_confidence.
  apply match_one_candidate in Hcand.
  pose proof (best_candidate_scanned ratio (match_track_of t) spotify_tracks)
    as Hs.
  unfold scanned in Hs. now rewrite Hcand in Hs.
Qed.

(** X2. The confidence of a result is 0.0 or positive, never negative or
    not-a-number; it is 0.0 exactly when no candidate of the pool scores
    above 0.0, as with an empty pool. *)
Theorem find_matches_confidence_sign (tracklist_tracks spotify_tracks : list Track)
        (min_confidence : float) :
  Forall (fun r =>
            (confidence r = 0%float \/ (0 <? confidence r)%float = true)
            /\ (confidence r = 0%float <->
                Forall (fun x =>
                          (0 <? score (match_track_of (tracklist_track r)) x)%float
                          = false) spotify_tracks))
         (find_matches ratio tracklist_tracks spotify_tracks min_confidence).
Proof.
  unfold find_matches. apply Forall_forall. intros r Hr.
  apply in_map_iff in Hr as [t [<- _]].
  rewrite match_one_source, match_one_confidence.
  pose proof (best_candidate_scanned ratio (match_track_of t) spotify_tracks)
    as Hs.
  unfold scanned in Hs.
  destruct (fst (best_candidate ratio (match_track_of t) spotify_tracks))
    as [cand|].
  - destruct Hs as (Hpos & earlier & later & Hpool & Hconf & _).
    split; [now right|]. split.
    + intros H0. rewrite H0 in Hpos. discriminate Hpos.
    + intros Hnone. rewrite Forall_forall in Hnone.
      rewrite Hconf, (Hnone cand) in Hpos; [discriminate|].
      rewrite Hpool. apply in_or_app. right. now left.
  - destruct Hs as [H0 Hnone]. split; [now left|]. now split.
Qed.

Lemma best_confidence_is_number (m : Track) (pool : list Track) :
  FloatOrder.is_number (snd (best_candidate ratio m pool)) = true.
Proof.
  pose proof (best_candidate_scanned ratio m pool) as Hs. unfold scanned in Hs.
  destruct (fst (best_candidate ratio m pool)).
  - destruct Hs as [Hpos _]. exact (FloatOrder.ltb_number_r _ _ Hpos).
  - destruct Hs as [-> _]. reflexivity.
Qed.

(** X3. Where the ratio of a text with itself is 100, a source track is
    matched exact as soon as the pool holds a candidate whose normalized
    title and artist are those of the track scored for it. *)
Theorem same_after_normalizing_is_exact
        (tracklist_tracks spotify_tracks : list Track) (min_confidence : float) :
  (forall s, ratio s s = 100%float) ->
  Forall (fun r =>
            (exists cand,
                In cand spotify_tracks
                /\ normalize_text (title cand)
                   = normalize_text (title (match_track_of (tracklist_track r)))
                /\ normalize_text (artist cand)
                   = normalize_text (artist (match_track_of (tracklist_track r))))
            -> status r = EXACT
               /\ exists found, spotify_track r = Some found)
         (find_matches ratio tracklist_tracks spotify_tracks min_confidence).
Proof.
  intros Hsame. unfold find_matches. apply Forall_forall. intros r Hr.
  apply in_map_iff in Hr as [t [<- _]].
  rewrite match_one_source. intros (cand & Hin & Htitle & Hartist).
  pose proof (best_candidate_maximal ratio (match_track_of t) spotify_tracks
                cand Hin) as Hmax.
  rewrite score_reads_title_and_artist, Htitle, Hartist, !Hsame in Hmax.
  change ((100 / 100) * 0.7 + (100 / 100) * 0.3)%float with 1%float in Hmax.
  pose proof (best_confidence_is_number (match_track_of t) spotify_tracks)
    as Hnum.
  pose proof (best_candidate_none ratio (match_track_of t) spotify_tracks)
    as Hnone.
  unfold match_one.
  destruct (best_candidate ratio (match_track_of t) spotify_tracks) as [b c].
  cbn [fst snd] in *.
  assert (Hone : (1 <=? c)%float = true)
    by (apply FloatOrder.numbers_compare; [exact Hnum | reflexivity | exact Hmax]).
  rewrite (FloatOrder.leb_trans 0.95 1 c eq_refl Hone). cbn.
  split; [reflexivity|].
  destruct b as [found|]; [now exists found|].
  rewrite (Hnone eq_refl) in Hone. discriminate Hone.
Qed.

(** X4. Every track id queued for the playlist is the non-empty external
    id of a candidate of the pool that [find_matches] attached to a source
    track with status exact or fuzzy; a source track without match queues
    nothing. *)
Theorem queued_ids_are_matched_candidates
        (tracklist_tracks spotify_tracks : list Track) (min_confidence : float) :
  Forall (fun id =>
            PyStr.truthy id = true
            /\ exists r cand,
                In r (find_matches ratio tracklist_tracks spotify_tracks
                                   min_confidence)
                /\ (status r = EXACT \/ status r = FUZZY)
                /\ spotify_track r = Some cand
                /\ In cand spotify_tracks
                /\ external_id cand = Some id)
         (queued_track_ids
            (find_matches ratio tracklist_tracks spotify_tracks min_confidence)).
Proof.
  set (matches := find_matches ratio tracklist_tracks spotify_tracks
                               min_confidence).
  assert (Hid : forall wanted id,
             (wanted = EXACT \/ wanted = FUZZY) ->
             In id (flat_map queued_id (filter (has_status wanted) matches)) ->
             PyStr.truthy id = true
             /\ exists r cand,
                 In r matches /\ (status r = EXACT \/ status r = FUZZY)
                 /\ spotify_track r = Some cand /\ In cand spotify_tracks
                 /\ external_id cand = Some id).
  { intros wanted id Hwanted Hin.
    apply in_flat_map in Hin as (r & Hr & Hq).
    apply filter_In in Hr as [Hr Hstatus]. unfold queued_id in Hq.
    destruct (spotify_track r) as [cand|] eqn:Hcand; [|destruct Hq].
    destruct (external_id cand) as [id'|] eqn:Hext; [|destruct Hq].
    destruct (PyStr.truthy id') eqn:Htruthy; [|destruct Hq].
    destruct Hq as [->|[]]. split; [exact Htruthy|].
    exists r, cand. split; [exact Hr|]. split.
    { unfold has_status in Hstatus.
      destruct Hwanted as [->| ->]; destruct (status r);
        try discriminate; auto. }
    split; [exact Hcand|]. split; [|exact Hext].
    unfold matches, find_matches in Hr.
    apply in_map_iff in Hr as [t [<- _]].
    apply match_one_candidate in Hcand.
    now apply best_candidate_attained in Hcand. }
  apply Forall_forall. intros id Hin. unfold queued_track_ids in Hin.
  cbv zeta in Hin. apply in_app_or in Hin as [Hin|Hin].
  - apply (Hid EXACT); auto.
  - apply (Hid FUZZY); auto.
Qed.

End DecisionMore.

Lemma same_after_normalizing_is_exact_witness :
  Forall (fun r =>
            (exists cand,
                In cand [strobe_catalog]
                /\ normalize_text (title cand)
                   = normalize_text (title (match_track_of (tracklist_track r)))
                /\ normalize_text (artist cand)
                   = normalize_text (artist (match_track_of (tracklist_track r))))
            -> status r = EXACT
               /\ exists found, spotify_track r = Some found)
         (find_matches exact_ratio [plain_track "the  STROBE" "Deadmau5"]
                       [strobe_catalog] 0.8%float).
Proof.
  apply (same_after_normalizing_is_exact exact_ratio).
  intros s. unfold exact_ratio. now rewrite String.eqb_refl.
Defined.

(** ** More on the text normalizer *)

Section NormalizerMore.
Import PyStr PyStrFacts.

Lemma lower_collapse_from (s : string) :
  forall b, lower (collapse_from b s) = collapse_from b (lower s).
Proof.
  induction s as [|c s IH]; intros b; [reflexivity|].
  change (lower (String c s)) with (String (lower_char c) (lower s)).
  cbn [collapse_from]. rewrite isspace_lower_char.
  destruct (isspace c); [destruct b|].
  - apply IH.
  - change (lower (String " " (collapse_from true s)))
      with (String " " (lower (collapse_from true s))).
    now rewrite IH.
  - change (lower (String c (collapse_from false s)))
      with (String (lower_char c) (lower (collapse_from false s))).
    now rewrite IH.
Qed.

(** X5. The normalizer ignores letter case and the amount of whitespace:
    lower-casing, stripping or whitespace-collapsing its input first does not
    change its result. *)
Theorem normalize_text_ignores_case_and_spacing (x : string) :
  normalize_text (lower x) = normalize_text x
  /\ normalize_text (strip x) = normalize_text x
  /\ normalize_text (collapse_ws x) = normalize_text x.
Proof.
  rewrite !normalize_text_words. repeat split.
  - now rewrite lower_idem.
  - now rewrite lower_strip, split_strip.
  - unfold collapse_ws. rewrite lower_collapse_from.
    fold (collapse_ws (lower x)). now rewrite split_collapse_ws.
Qed.

(** X6. The words of a normalized text are the words of the lower-cased
    input without the stop words, in their order: none of them is a stop
    word, and the normalized text is in lower case. *)
Theorem normalize_text_tokens (x : string) :
  split (normalize_text x) = filter kept (split (lower x))
  /\ Forall (fun word => mem word common_words = false)
            (split (normalize_text x))
  /\ lower (normalize_text x) = normalize_text x.
Proof.
  rewrite normalize_text_words.
  set (ws := filter kept (split (lower x))).
  assert (Hok : Forall word_ok ws) by apply filter_kept_ok, split_words.
  assert (Hlow : Forall (fun w => lower w = w) ws).
  { apply filter_kept_lower, split_from_lower; [reflexivity|].
    apply lower_idem. }
  rewrite (split_join ws Hok). split; [reflexivity|].
  split; [|now apply lower_join].
  apply Forall_forall. intros w Hw. unfold ws in Hw.
  apply filter_In in Hw as [_ Hkept]. unfold kept in Hkept.
  now apply negb_true_iff in Hkept.
Qed.

End NormalizerMore.

(** ** More on the filters *)

Lemma filter_all {A : Type} (p : A -> bool) (l : list A) :
  filter p (filter p l) = filter p l.
Proof.
  induction l as [|a l IH]; [reflexivity|]. simpl.
  destruct (p a) eqn:E; simpl; [now rewrite E, IH | exact IH].
Qed.

(** X7. The duration filter is idempotent: filtering its result again, for
    the same source track, changes nothing. *)
Theorem filter_by_duration_idempotent (spotify_tracks : list Track)
        (tracklist_track : Track) :
  _filter_by_duration (_filter_by_duration spotify_tracks tracklist_track)
                      tracklist_track
  = _filter_by_duration spotify_tracks tracklist_track.
Proof.
  unfold _filter_by_duration.
  destruct (duration tracklist_track) as [d|]; [|reflexivity].
  destruct (d =? 0)%Z; [reflexivity|]. cbv zeta.
  match goal with
  | |- context [non_empty (filter ?p spotify_tracks)] => set (narrow := p)
  end.
  destruct (non_empty (filter narrow spotify_tracks)) eqn:E.
  - now rewrite filter_all, E.
  - now rewrite E.
Qed.

Lemma sub_list_refl {A : Type} (l : list A) : sub_list l l.
Proof.
  exists (fun _ => true). induction l as [|a l IH]; [reflexivity|].
  cbn [filter]. now rewrite <- IH.
Qed.

Lemma sub_list_incl {A : Type} (part whole : list A) :
  sub_list part whole -> incl part whole.
Proof. intros [keep ->] x Hx. now apply filter_In in Hx. Qed.

Lemma prefer_sub_list (candidates : list Track) (track : Track) :
  sub_list (_prefer_exact_title_and_artist candidates track) candidates.
Proof. unfold _prefer_exact_title_and_artist. cbv zeta. now eexists. Qed.

Lemma filter_by_duration_sub_list (spotify_tracks : list Track)
      (track : Track) :
  sub_list (_filter_by_duration spotify_tracks track) spotify_tracks.
Proof.
  unfold _filter_by_duration.
  destruct (duration track) as [d|]; [|apply sub_list_refl].
  destruct (d =? 0)%Z; [apply sub_list_refl|]. cbv zeta.
  match goal with
  | |- context [non_empty (filter ?p spotify_tracks)] =>
      destruct (non_empty (filter p spotify_tracks))
  end; [now eexists | apply sub_list_refl].
Qed.

Lemma filter_by_duration_non_empty (spotify_tracks : list Track)
      (track : Track) :
  non_empty spotify_tracks = true ->
  non_empty (_filter_by_duration spotify_tracks track) = true.
Proof.
  intros Hne. unfold _filter_by_duration.
  destruct (duration track) as [d|]; [|exact Hne].
  destruct (d =? 0)%Z; [exact Hne|]. cbv zeta.
  match goal with
  | |- context [non_empty (filter ?p spotify_tracks)] =>
      destruct (non_empty (filter p spotify_tracks)) eqn:E
  end; [exact E | exact Hne].
Qed.

(** What the loop over the enhanced queries makes of a non-empty answer. *)
Lemma preferred_or_filtered_value (self : SpotifyProvider) (track : Track)
      (spotify_tracks : list Track) :
  non_empty spotify_tracks = true ->
  preferred_or_filtered self track spotify_tracks
  = Some (if non_empty (_prefer_exact_title_and_artist spotify_tracks track)
          then _prefer_exact_title_and_artist spotify_tracks track
          else if negb (is_extended track) && enable_duration_filter self
               then _filter_by_duration spotify_tracks track
               else spotify_tracks).
Proof.
  intros Hne. unfold preferred_or_filtered. rewrite Hne.
  destruct (non_empty (_prefer_exact_title_and_artist spotify_tracks track));
    [reflexivity|].
  cbv zeta.
  destruct (is_extended track); cbn [negb andb]; [now rewrite Hne|].
  destruct (enable_duration_filter self); [|now rewrite Hne].
  now rewrite (filter_by_duration_non_empty _ track Hne).
Qed.

(** X8. The loop over the enhanced queries never passes over an answer
    that has tracks, so the branch "no duration matches" is never taken.
    For a non-empty answer it returns a non-empty sub-list of that answer,
    with the tracks in the order of the answer: the candidates with the
    title and an artist of the source track when there are any; otherwise
    what the duration filter leaves of the answer, when the filter is
    enabled and the mix is not an extended one; otherwise the answer
    itself. *)
Theorem preferred_or_filtered_accepts (self : SpotifyProvider) (track : Track)
        (spotify_tracks : list Track) :
  non_empty spotify_tracks = true ->
  exists found,
    preferred_or_filtered self track spotify_tracks = Some found
    /\ non_empty found = true
    /\ incl found spotify_tracks
    /\ sub_list found spotify_tracks
    /\ found
       = (if non_empty (_prefer_exact_title_and_artist spotify_tracks track)
          then _prefer_exact_title_and_artist spotify_tracks track
          else if negb (is_extended track) && enable_duration_filter self
               then _filter_by_duration spotify_tracks track
               else spotify_tracks).
Proof.
  intros Hne. eexists.
  split; [apply (preferred_or_filtered_value self track _ Hne)|].
  assert (Hsub : sub_list
                   (if non_empty
                         (_prefer_exact_title_and_artist spotify_tracks track)
                    then _prefer_exact_title_and_artist spotify_tracks track
                    else if negb (is_extended track)
                            && enable_duration_filter self
                         then _filter_by_duration spotify_tracks track
                         else spotify_tracks) spotify_tracks).
  { destruct (non_empty
                (_prefer_exact_title_and_artist spotify_tracks track));
      [apply prefer_sub_list|].
    destruct (negb (is_extended track) && enable_duration_filter self);
      [apply filter_by_duration_sub_list | apply sub_list_refl]. }
  split; [|split; [now apply sub_list_incl | split; [exact Hsub | reflexivity]]].
  destruct (non_empty (_prefer_exact_title_and_artist spotify_tracks track))
    eqn:Hpref; [exact Hpref|].
  destruct (negb (is_extended track) && enable_duration_filter self);
    [now apply filter_by_duration_non_empty | exact Hne].
Qed.

Lemma preferred_or_filtered_accepts_witness :
  non_empty [track_of_seconds 402] = true
  /\ exists found,
      preferred_or_filtered opus_provider opus_extended [track_of_seconds 402]
      = Some found
      /\ non_empty found = true
      /\ incl found [track_of_seconds 402]
      /\ sub_list found [track_of_seconds 402]
      /\ found
         = (if non_empty (_prefer_exact_title_and_artist
                            [track_of_seconds 402] opus_extended)
            then _prefer_exact_title_and_artist
                   [track_of_seconds 402] opus_extended
            else if negb (is_extended opus_extended)
                    && enable_duration_filter opus_provider
                 then _filter_by_duration [track_of_seconds 402] opus_extended
                 else [track_of_seconds 402]).
Proof.
  split; [reflexivity|].
  apply (preferred_or_filtered_accepts opus_provider opus_extended
           [track_of_seconds 402]). reflexivity.
Defined.

(** ** More on the query builder *)

Lemma unique_from_fresh (queries : list string) :
  forall seen,
    NoDup (unique_from seen queries)
    /\ forall q, In q (unique_from seen queries) -> PyStr.mem q seen = false.
Proof.
  induction queries as [|query rest IH]; intros seen; simpl.
  - split; [constructor | intros q []].
  - destruct (PyStr.mem query seen) eqn:Hmem; [apply IH|].
    destruct (IH (query :: seen)) as [Hnd Hfresh]. split.
    + constructor; [|exact Hnd]. intros Hin.
      apply Hfresh in Hin. unfold PyStr.mem in Hin. simpl in Hin.
      now rewrite String.eqb_refl in Hin.
    + intros q [<-|Hin]; [exact Hmem|].
      apply Hfresh in Hin. unfold PyStr.mem in *. simpl in Hin.
      now apply orb_false_iff in Hin as [_ Hin].
Qed.

Lemma unique_from_sound (queries : list string) :
  forall seen q, In q (unique_from seen queries) -> In q queries.
Proof.
  induction queries as [|query rest IH]; intros seen q Hin; [exact Hin|].
  simpl in Hin. destruct (PyStr.mem query seen).
  - right. now apply IH in Hin.
  - destruct Hin as [<-|Hin]; [now left | right; now apply IH in Hin].
Qed.

Module PyStrMore.
Import PyStr PyStrFacts.

Lemma prefix_refl (s : string) : String.prefix s s = true.
Proof.
  induction s as [|c s IH]; [reflexivity|]. now apply prefix_cons_same.
Qed.

Lemma prefix_app (w a b : string) :
  String.prefix w a = true -> String.prefix w (a +++ b) = true.
Proof.
  revert a. induction w as [|c w IH]; intros a H.
  - now destruct (a +++ b).
  - destruct a as [|c' a]; [discriminate|].
    apply prefix_cons in H as [<- H]. cbn [String.append].
    apply prefix_cons_same. now apply IH.
Qed.

Lemma contains_refl (s : string) : contains s s = true.
Proof. destruct s; [reflexivity|]. cbn [contains]. now rewrite prefix_refl. Qed.

Lemma contains_app_l (w a b : string) :
  contains w a = true -> contains w (a +++ b) = true.
Proof.
  induction a as [|c a IH]; intros H.
  - cbn [contains] in H. rewrite orb_false_r in H.
    destruct w; [|discriminate]. now destruct (EmptyString +++ b).
  - cbn [contains] in H. apply orb_true_iff in H as [H|H].
    + cbn [String.append contains].
      change (String c (a +++ b)) with (String c a +++ b).
      now rewrite (prefix_app _ _ b H).
    + cbn [String.append contains]. rewrite (IH H). apply orb_true_r.
Qed.

End PyStrMore.

Ltac has_text :=
  solve [ apply PyStrMore.contains_refl
        | apply PyStrMore.contains_app_l; has_text
        | apply PyStrFacts.contains_app_r; has_text ].

Lemma title_with_has_title (track : Track) (mix : string) :
  PyStr.contains (title track) (title_with track mix) = true.
Proof.
  unfold title_with, quoted.
  destruct (PyStr.contains ("(" +++ mix +++ ")") (title track)
            || PyStr.contains ("(" +++ mix) (title track)); has_text.
Qed.

(** X9. The queries built for a track are pairwise distinct, and each of
    them carries the title of the track. *)
Theorem build_enhanced_queries_distinct_and_titled (track : Track) :
  NoDup (_build_enhanced_queries track)
  /\ Forall (fun query => PyStr.contains (title track) query = true)
            (_build_enhanced_queries track).
Proof.
  split; [apply unique_from_fresh|].
  apply Forall_forall. intros q Hq. unfold _build_enhanced_queries in Hq.
  cbv zeta in Hq. apply unique_from_sound in Hq. revert q Hq.
  apply Forall_forall.
  assert (Hmix : PyStr.contains (title track)
                   match real_mix track with
                   | Some mix => title_with track mix
                   | None => quoted (title track)
                   end = true).
  { destruct (real_mix track); [apply title_with_has_title|].
    unfold quoted. has_text. }
  repeat (apply Forall_app; split).
  - destruct (year track) as [y|]; [|constructor].
    destruct (negb (y =? 0)%Z); [|constructor].
    repeat constructor;
      try (apply PyStrMore.contains_app_l; exact Hmix); has_text.
  - unfold quoted. repeat constructor; has_text.
  - destruct (real_mix track); repeat constructor. exact Hmix.
  - unfold quoted. repeat constructor; has_text.
  - apply Forall_forall. intros q Hq. apply in_map_iff in Hq as [r [<- _]].
    unfold quoted. has_text.
  - destruct (sanitize (Some (album track))) as [a|]; [|constructor].
    destruct (PyStr.truthy a); [|constructor].
    apply Forall_app. split.
    + destruct (year track) as [y|]; [|constructor].
      destruct (negb (y =? 0)%Z); [|constructor].
      unfold quoted. repeat constructor; has_text.
    + unfold quoted. repeat constructor; has_text.
  - destruct (sanitize (label track)) as [l|]; [|constructor].
    destruct (PyStr.truthy l); [|constructor].
    unfold quoted. repeat constructor; has_text.
Qed.

(** ** More on the retrieval cascade *)

Section Provenance.

Variable self : SpotifyProvider.
Variable source : Track.

Lemma ret_none_answers_only : answers_only self source (ret None).
Proof.
  intros log found log' H. injection H as <- <-. exists [].
  split; [now rewrite List.app_nil_r | discriminate].
Qed.

Lemma or_else_answers_only (m1 m2 : Search (option (list Track))) :
  answers_only self source m1 -> answers_only self source m2 ->
  answers_only self source (m1 <||> m2).
Proof.
  intros H1 H2 log found log' H. unfold or_else in H.
  destruct (m1 log) as [[a|] log1] eqn:E1.
  - injection H as <- <-. now apply H1.
  - destruct (H1 _ _ _ E1) as (new1 & -> & _).
    destruct (H2 _ _ _ H) as (new2 & -> & Hfound).
    exists (new1 ++ new2). split; [now rewrite List.app_assoc|].
    intros tracks Htracks.
    destruct (Hfound tracks Htracks)
      as (earlier & req & answer & -> & Hsession & Hkept).
    exists (new1 ++ earlier), req, answer.
    rewrite !List.app_assoc in *. auto.
Qed.

Lemma try_queries_answers_only
      (accept : list Track -> option (list Track)) (queries : list string) :
  (forall answer found,
      accept answer = Some found -> kept_of source answer found) ->
  answers_only self source (try_queries self accept queries).
Proof.
  intros Haccept.
  induction queries as [|query rest IH]; [apply ret_none_answers_only|].
  intros log found log' H. cbn [try_queries] in H.
  unfold bind, session_get in H.
  set (req := mkRequest query "track" 50) in *.
  assert (Hrest : forall found log',
             try_queries self accept rest (log ++ [req]) = (found, log') ->
             exists new,
               log' = log ++ new
               /\ forall tracks, found = Some tracks ->
                                 from_last_answer self source log new tracks).
  { intros found0 log0 H0.
    destruct (IH _ _ _ H0) as (new & -> & Hfound).
    exists ([req] ++ new). split; [now rewrite List.app_assoc|].
    intros tracks Htracks.
    destruct (Hfound tracks Htracks)
      as (earlier & req' & answer & -> & Hsession & Hkept).
    exists ([req] ++ earlier), req', answer.
    rewrite !List.app_assoc in *. auto. }
  destruct (session self log req) as [answer|] eqn:Hsession;
    [|now apply Hrest].
  destruct (accept answer) as [hit|] eqn:Hhit; [|now apply Hrest].
  unfold ret in H. injection H as <- <-.
  exists [req]. split; [reflexivity|].
  intros tracks Htracks. injection Htracks as <-.
  exists [], req, answer. rewrite List.app_nil_r. auto.
Qed.

Lemma any_results_sound (answer found : list Track) :
  any_results answer = Some found -> kept_of source answer found.
Proof.
  unfold any_results. destruct (non_empty answer) eqn:E; [|discriminate].
  intros H. injection H as <-.
  split; [exact E|]. split; [apply sub_list_refl | now left].
Qed.

Lemma preferred_or_filtered_sound (answer found : list Track) :
  preferred_or_filtered self source answer = Some found ->
  kept_of source answer found.
Proof.
  destruct (non_empty answer) eqn:Hne.
  2:{ unfold preferred_or_filtered. now rewrite Hne. }
  rewrite (preferred_or_filtered_value self source answer Hne).
  intros H. injection H as <-. unfold kept_of.
  destruct (non_empty (_prefer_exact_title_and_artist answer source))
    eqn:Hpref.
  { split; [exact Hpref|]. split; [apply prefer_sub_list | auto]. }
  destruct (negb (is_extended source) && enable_duration_filter self).
  - split; [now apply filter_by_duration_non_empty|].
    split; [apply filter_by_duration_sub_list | auto].
  - split; [exact Hne|]. split; [apply sub_list_refl | auto].
Qed.

Lemma isrc_lookup_answers_only (track : Track) :
  answers_only self source (isrc_lookup self track).
Proof.
  unfold isrc_lookup.
  destruct (isrc track) as [code|]; [|apply ret_none_answers_only].
  destruct (PyStr.truthy code); [|apply ret_none_answers_only].
  intros log found log' H.
  unfold bind, _search_by_isrc, bind, session_get, ret in H.
  fold (isrc_request code) in H.
  destruct (session self log (isrc_request code)) as [answer|] eqn:Hsession.
  - destruct (non_empty answer) eqn:Hne; injection H as <- <-;
      exists [isrc_request code]; (split; [reflexivity|]); [|discriminate].
    intros tracks Htracks. injection Htracks as <-.
    exists [], (isrc_request code), answer. rewrite List.app_nil_r.
    split; [reflexivity|]. split; [exact Hsession|].
    split; [exact Hne|]. split; [apply sub_list_refl | now left].
  - cbn in H. injection H as <- <-. exists [isrc_request code].
    split; [reflexivity | discriminate].
Qed.

Lemma cascade_answers_only :
  answers_only self source
    (isrc_lookup self source <||> extended_fast_path self source
     <||> enhanced_search self source <||> per_artist_fallback self source
     <||> extended_base_retry self source <||> trimmed_mix_retry self source
     <||> last_resort self source).
Proof.
  repeat apply or_else_answers_only.
  - apply isrc_lookup_answers_only.
  - unfold extended_fast_path.
    destruct (is_extended source); [|apply ret_none_answers_only].
    destruct (negb _); [|apply ret_none_answers_only].
    apply try_queries_answers_only, any_results_sound.
  - apply try_queries_answers_only, preferred_or_filtered_sound.
  - apply try_queries_answers_only, any_results_sound.
  - unfold extended_base_retry.
    destruct (is_extended source); [|apply ret_none_answers_only].
    destruct (negb _); [|apply ret_none_answers_only].
    apply try_queries_answers_only, any_results_sound.
  - unfold trimmed_mix_retry.
    destruct (mix_name source) as [mix|]; [|apply ret_none_answers_only].
    destruct (PyStr.truthy mix); [|apply ret_none_answers_only].
    cbv zeta. destruct (negb _); [|apply ret_none_answers_only].
    apply try_queries_answers_only, any_results_sound.
  - apply try_queries_answers_only, any_results_sound.
Qed.

End Provenance.

Section Returned.

Variable self : SpotifyProvider.

Lemma search_track_cases (track : Track) (log : list Request) :
  (truthy_str (access_token self) = false
   /\ search_track self track log = (Raise "Access token not set", log))
  \/ (truthy_str (access_token self) = true
      /\ exists tracks new,
          search_track self track log = (Return tracks, log ++ new)
          /\ (tracks = []
              \/ from_last_answer self (repaired track) log new tracks)).
Proof.
  unfold search_track.
  destruct (truthy_str (access_token self)); [right | left; now split].
  split; [reflexivity|]. cbn [negb]. cbv zeta. fold (repaired track).
  unfold bind at 1.
  pose proof (cascade_answers_only self (repaired track) log) as Hsound.
  match goal with
  | |- context [let '(a, log') := ?m log in _] =>
      fold m in Hsound; destruct (m log) as [found log']
  end.
  destruct (Hsound _ _ eq_refl) as (new & -> & Hfound).
  destruct found as [tracks|].
  - exists tracks, new. split; [reflexivity|]. right. now apply Hfound.
  - exists [], new. split; [reflexivity|]. now left.
Qed.

(** X10. [search_track] invents no candidate and hides no request: without
    an access token it raises and issues no request; with one it only adds
    requests to the log, and the candidates it returns, when there are any,
    are a sub-list of the answer to the last request it issued, with the
    tracks in the order of that answer: the answer itself, its candidates
    with the title and an artist of the source track (its title repaired),
    or what the duration filter leaves of it. *)
Theorem search_track_returns_last_answer (track : Track) (log : list Request) :
  let '(result, log') := search_track self track log in
  match result with
  | Raise _ => truthy_str (access_token self) = false /\ log' = log
  | Return tracks =>
      truthy_str (access_token self) = true
      /\ exists new,
          log' = log ++ new
          /\ (tracks = []
              \/ from_last_answer self (repaired track) log new tracks)
  end.
Proof.
  destruct (search_track_cases track log)
    as [[Htoken ->]|(Htoken & tracks & new & -> & H)].
  - now split.
  - split; [exact Htoken|]. now exists new.
Qed.

(** X11. When no call to the catalog yields a track (each one raises or
    answers without items), [search_track] returns the empty list. *)
Theorem search_track_nothing_found (track : Track) (log : list Request) :
  truthy_str (access_token self) = true ->
  (forall l req, session self l req = None \/ session self l req = Some []) ->
  fst (search_track self track log) = Return [].
Proof.
  intros Htoken Hempty.
  destruct (search_track_cases track log)
    as [[Hno _]|(_ & tracks & new & -> & [->|Hlast])];
    [congruence | reflexivity |].
  destruct Hlast
    as (earlier & req & answer & _ & Hsession & Hne & [keep Hsub] & _).
  destruct (Hempty (log ++ earlier) req) as [H|H]; rewrite H in Hsession;
    [discriminate|].
  injection Hsession as <-. now rewrite Hsub.
Qed.

End Returned.

Lemma search_track_nothing_found_witness :
  fst (search_track failing_provider strobe_with_isrc []) = Return [].
Proof.
  apply (search_track_nothing_found failing_provider strobe_with_isrc []);
    [reflexivity | intros l req; now left].
Defined.

(** ** [search_tracks] *)

Section SearchTracks.

Variable self : SpotifyProvider.

Lemma failing_calls_free (track : Track) (log : list Request) :
  truthy_str (access_token self) = true ->
  exists found log', search_track self track log = (Return found, log').
Proof.
  intros Htoken.
  unfold search_track. rewrite Htoken. cbn [negb]. cbv zeta.
  unfold bind at 1.
  match goal with
  | |- context [let '(a, log') := ?m log in _] =>
      destruct (m log) as [found log']
  end.
  now exists (match found with Some tracks => tracks | None => [] end), log'.
Qed.

Lemma search_tracks_from_acc (tracks : list Track) :
  forall acc log,
    search_tracks_from self tracks acc log
    = match search_tracks_from self tracks [] log with
      | (Raise message, log') => (Raise message, log')
      | (Return found, log') => (Return (acc ++ found), log')
      end.
Proof.
  induction tracks as [|track rest IH]; intros acc log.
  - cbn. now rewrite List.app_nil_r.
  - cbn [search_tracks_from]. unfold bind.
    destruct (search_track self track log) as [[message|found] log1];
      [reflexivity|].
    rewrite (IH (acc ++ found)), (IH ([] ++ found)).
    destruct (search_tracks_from self rest [] log1) as [[message|more] log2];
      [reflexivity|].
    now rewrite List.app_assoc.
Qed.

(** X12. [search_tracks] searches the tracks one after the other on one
    log and concatenates what [search_track] returns: for a single track it
    is [search_track], and for a list in two parts it is the run on the
    first part followed by the run on the second. *)
Theorem search_tracks_concatenates (tracks1 tracks2 : list Track) (track : Track)
        (log : list Request) :
  search_tracks self [track] log = search_track self track log
  /\ search_tracks self (tracks1 ++ tracks2) log
     = then_search (search_tracks self tracks1) (search_tracks self tracks2) log.
Proof.
  split.
  - unfold search_tracks. cbn [search_tracks_from]. unfold bind.
    now destruct (search_track self track log) as [[message|found] log1].
  - unfold search_tracks, then_search. revert log.
    induction tracks1 as [|t rest IH]; intros log.
    + cbn [app search_tracks_from ret].
      now destruct (search_tracks_from self tracks2 [] log) as [[m|f] l].
    + cbn [app search_tracks_from]. unfold bind.
      destruct (search_track self t log) as [[message|found] log1];
        [reflexivity|].
      rewrite (search_tracks_from_acc (rest ++ tracks2)),
        (search_tracks_from_acc rest), IH.
      destruct (search_tracks_from self rest [] log1) as [[m1|f1] l1];
        [reflexivity|].
      destruct (search_tracks_from self tracks2 [] l1) as [[m2|f2] l2];
        [reflexivity|].
      now rewrite List.app_assoc.
Qed.

(** X13. Without an access token [search_tracks] raises for a non-empty
    list of tracks, before any request, but returns the empty list for an
    empty one; with an access token it never raises. *)
Theorem search_tracks_raises_without_token (tracks : list Track)
        (log : list Request) :
  (truthy_str (access_token self) = false ->
   search_tracks self tracks log
   = (if non_empty tracks then Raise "Access token not set" else Return [],
      log))
  /\ (truthy_str (access_token self) = true ->
      exists found log', search_tracks self tracks log = (Return found, log')).
Proof.
  split; intros Htoken.
  - destruct tracks as [|track rest]; [reflexivity|].
    unfold search_tracks. cbn [search_tracks_from non_empty]. unfold bind.
    unfold search_track. now rewrite Htoken.
  - unfold search_tracks. generalize (@nil Track) as acc. revert log.
    induction tracks as [|track rest IH]; intros log acc.
    + now exists acc, log.
    + cbn [search_tracks_from]. unfold bind.
      destruct (failing_calls_free track log Htoken) as (found & log1 & ->).
      apply IH.
Qed.

End SearchTracks.

(** ** [add_tracks_to_playlist] *)

Lemma ceil_step (k n : nat) :
  (0 < k)%nat -> (0 < n)%nat ->
  ((n + k - 1) / k = S ((n - k + k - 1) / k))%nat.
Proof.
  intros Hk Hn. destruct (Nat.le_gt_cases k n) as [Hle|Hlt].
  - replace (n + k - 1)%nat with ((n - k + k - 1) + 1 * k)%nat by lia.
    rewrite Nat.div_add by lia. lia.
  - replace (n - k + k - 1)%nat with (k - 1)%nat by lia.
    rewrite (Nat.div_small (k - 1) k) by lia.
    symmetry. apply (Nat.div_unique (n + k - 1) k 1 (n - 1)); lia.
Qed.

Lemma batches_of_nil (k : nat) : (0 < k)%nat -> batches_of k [] = [].
Proof.
  intros Hk. unfold batches_of, range_step. cbn [List.length].
  replace (0 + k - 1)%nat with (k - 1)%nat by lia.
  now rewrite Nat.div_small by lia.
Qed.

Lemma batches_of_step (k : nat) (l : list string) :
  (0 < k)%nat -> l <> [] ->
  batches_of k l = firstn k l :: batches_of k (skipn k l).
Proof.
  intros Hk Hl. unfold batches_of, range_step.
  assert (Hn : (0 < List.length l)%nat) by (destruct l; [congruence | cbn; lia]).
  rewrite (ceil_step k (List.length l) Hk Hn), length_skipn.
  cbn [seq map]. rewrite Nat.mul_0_l. cbn [skipn]. f_equal.
  rewrite <- seq_shift, !map_map. apply map_ext. intros j.
  rewrite skipn_skipn. f_equal. f_equal. lia.
Qed.

Lemma batches_of_spec (k : nat) :
  (0 < k)%nat ->
  forall n (l : list string),
    (List.length l <= n)%nat ->
    concat (batches_of k l) = l
    /\ Forall (fun batch => (1 <= List.length batch <= k)%nat) (batches_of k l).
Proof.
  intros Hk. induction n as [|n IH]; intros l Hlen.
  - destruct l; [|cbn in Hlen; lia]. rewrite batches_of_nil by exact Hk.
    now split.
  - destruct l as [|a l]; [rewrite batches_of_nil by exact Hk; now split|].
    rewrite batches_of_step by (exact Hk || discriminate).
    destruct (IH (skipn k (a :: l))) as [Hconcat Hall].
    { rewrite length_skipn. cbn [List.length] in *. lia. }
    split.
    + cbn [concat]. rewrite Hconcat. apply firstn_skipn.
    + constructor; [|exact Hall]. rewrite length_firstn.
      cbn [List.length]. lia.
Qed.

(** X14. The batches of [add_tracks_to_playlist] cut the track ids into
    consecutive pieces: put together they are the track ids in their order,
    each batch has between 1 and 100 ids, and their number is the number of
    ids divided by 100, rounded up. *)
Theorem batches_of_cover (track_ids : list string) :
  concat (batches_of 100 track_ids) = track_ids
  /\ Forall (fun batch => (1 <= List.length batch <= 100)%nat)
            (batches_of 100 track_ids)
  /\ List.length (batches_of 100 track_ids)
     = ((List.length track_ids + 99) / 100)%nat.
Proof.
  destruct (batches_of_spec 100 ltac:(lia) (List.length track_ids) track_ids
              (Nat.le_refl _)) as [Hconcat Hall].
  repeat split; [exact Hconcat | exact Hall |].
  unfold batches_of, range_step. rewrite !length_map, length_seq.
  f_equal. lia.
Qed.

Lemma posts_pass_nil (post : PostSession) (playlist_id : string)
      (posted : list PostRequest) :
  posts_pass post playlist_id posted [].
Proof. intros [|b done] batch rest H; discriminate H. Qed.

Lemma posts_pass_cons (post : PostSession) (playlist_id : string)
      (posted : list PostRequest) (batch : list string)
      (batches : list (list string)) :
  post posted (batch_request playlist_id batch) = true ->
  posts_pass post playlist_id (posted ++ [batch_request playlist_id batch])
             batches ->
  posts_pass post playlist_id posted (batch :: batches).
Proof.
  intros Hpost Hrest [|b done] batch' rest H; injection H as <- ->.
  - cbn [map]. now rewrite List.app_nil_r.
  - cbn [map]. specialize (Hrest done batch' rest eq_refl).
    now rewrite <- List.app_assoc in Hrest.
Qed.

Lemma post_batches_outcome (post : PostSession) (playlist_id : string)
      (batches : list (list string)) :
  forall posted,
    let '(ok, posted') := post_batches post playlist_id batches posted in
    if ok then posted' = posted ++ map (batch_request playlist_id) batches
               /\ posts_pass post playlist_id posted batches
    else exists done failed rest,
        batches = done ++ failed :: rest
        /\ posted' = posted ++ map (batch_request playlist_id) (done ++ [failed])
        /\ posts_pass post playlist_id posted done
        /\ post (posted ++ map (batch_request playlist_id) done)
                (batch_request playlist_id failed) = false.
Proof.
  induction batches as [|batch rest IH]; intros posted.
  - cbn. rewrite List.app_nil_r. split; [reflexivity | apply posts_pass_nil].
  - cbn [post_batches]. fold (batch_request playlist_id batch).
    destruct (post posted (batch_request playlist_id batch)) eqn:Hpost.
    + specialize (IH (posted ++ [batch_request playlist_id batch])).
      destruct (post_batches post playlist_id rest
                  (posted ++ [batch_request playlist_id batch]))
        as [[|] posted'].
      * destruct IH as [-> Hpass]. cbn [map]. rewrite <- List.app_assoc.
        split; [reflexivity | now apply posts_pass_cons].
      * destruct IH as (done & failed & rest' & -> & -> & Hpass & Hfailed).
        exists (batch :: done), failed, rest'.
        cbn [map app]. rewrite <- !List.app_assoc in *. cbn [app] in *.
        repeat split; [|exact Hfailed].
        apply posts_pass_cons; [exact Hpost | exact Hpass].
    + exists [], batch, rest. cbn [map app]. rewrite List.app_nil_r.
      repeat split; [apply posts_pass_nil | exact Hpost].
Qed.

(** X15. [add_tracks_to_playlist] raises without an access token, before
    any post. With one, it returns True exactly when every post succeeds:
    it has then posted every batch, and the uris posted are those of all
    track ids in their order (none for an empty list). It returns False at
    the first post that fails: the posts before it succeeded, it is the last
    post made, and the batches after it are not posted. *)
Theorem add_tracks_posts_batches (self : SpotifyProvider) (post : PostSession)
        (playlist_id : string) (track_ids : list string)
        (posted : list PostRequest) :
  let '(result, posted') :=
    add_tracks_to_playlist self post playlist_id track_ids posted in
  let batches := batches_of 100 track_ids in
  match result with
  | AddRaise _ => truthy_str (access_token self) = false /\ posted' = posted
  | AddReturn true =>
      truthy_str (access_token self) = true
      /\ posted' = posted ++ map (batch_request playlist_id) batches
      /\ concat (map post_uris (map (batch_request playlist_id) batches))
         = map (fun track_id => "spotify:track:" +++ track_id) track_ids
      /\ posts_pass post playlist_id posted batches
  | AddReturn false =>
      truthy_str (access_token self) = true
      /\ exists done failed rest,
          batches = done ++ failed :: rest
          /\ posted' = posted ++ map (batch_request playlist_id)
                                     (done ++ [failed])
          /\ post (posted ++ map (batch_request playlist_id) done)
                  (batch_request playlist_id failed) = false
          /\ posts_pass post playlist_id posted done
  end.
Proof.
  assert (Huris : concat (map post_uris
                            (map (batch_request playlist_id)
                                 (batches_of 100 track_ids)))
                  = map (fun track_id => "spotify:track:" +++ track_id)
                        track_ids).
  { rewrite map_map. cbn [post_uris batch_request].
    rewrite <- concat_map.
    destruct (batches_of_spec 100 ltac:(lia) (List.length track_ids) track_ids
                (Nat.le_refl _)) as [-> _]. reflexivity. }
  unfold add_tracks_to_playlist.
  destruct (truthy_str (access_token self)); cbn [negb]; [|now split].
  destruct track_ids as [|id ids]; cbn [non_empty negb].
  - cbv zeta. rewrite batches_of_nil by lia. cbn [map concat].
    rewrite List.app_nil_r. repeat split. apply posts_pass_nil.
  - cbv zeta.
    pose proof (post_batches_outcome post playlist_id
                  (batches_of 100 (id :: ids)) posted) as H.
    destruct (post_batches post playlist_id (batches_of 100 (id :: ids)) posted)
      as [[|] posted'].
    + destruct H as [-> Hpass]. auto.
    + destruct H as (done & failed & rest & Hsplit & -> & Hpass & Hfailed).
      split; [reflexivity|]. exists done, failed, rest. auto.
Qed.

(** Three batches, the second post failing: two posts are made, the third
    batch is not posted, and the result is False. *)
Example add_tracks_stops_at_failing_post :
  let post : PostSession := fun posted _ => (List.length posted =? 0)%nat in
  let '(result, posted) :=
    add_tracks_to_playlist opus_provider post "playlist"
                           (repeat "id" 250) [] in
  result = AddReturn false
  /\ map (fun req => List.length (post_uris req)) posted = [100; 100]%nat.
Proof. vm_compute. split; reflexivity. Qed.

(** ** The line parser of the manual tracklist *)

Module Partition.
Import PyStr PyStrFacts.

Lemma prefix_drop (sep s : string) :
  String.prefix sep s = true -> s = sep +++ drop (String.length sep) s.
Proof.
  revert s. induction sep as [|a sep IH]; intros s H; [reflexivity|].
  destruct s as [|b s]; [discriminate|].
  apply prefix_cons in H as [<- H]. cbn. now rewrite <- IH.
Qed.

Lemma partition_some (sep s before after : string) :
  partition sep s = Some (before, after) ->
  s = before +++ sep +++ after /\ contains sep s = true.
Proof.
  revert before. induction s as [|c s IH]; intros before H; [discriminate|].
  cbn [partition] in H. cbn [contains].
  destruct (String.prefix sep (String c s)) eqn:Hpre.
  - injection H as <- <-. split; [now apply prefix_drop | reflexivity].
  - destruct (partition sep s) as [[b a]|]; [|discriminate].
    injection H as <- <-. destruct (IH b eq_refl) as [-> ->].
    split; [reflexivity | apply orb_true_r].
Qed.

Lemma partition_none (sep s : string) :
  is_empty sep = false -> partition sep s = None -> contains sep s = false.
Proof.
  intros Hsep. induction s as [|c s IH]; intros H.
  - destruct sep; [discriminate | reflexivity].
  - cbn [partition] in H. cbn [contains].
    destruct (String.prefix sep (String c s)); [discriminate|].
    destruct (partition sep s) as [[b a]|]; [discriminate|]. now apply IH.
Qed.

(** The separator " - " is found right after a text without " -". *)
Lemma partition_after (a t : string) :
  contains " -" a = false -> partition " - " (a +++ " - " +++ t) = Some (a, t).
Proof.
  induction a as [|c a IH]; intros H.
  - now destruct t.
  - cbn [contains] in H. apply orb_false_iff in H as [Hpre Hin].
    change (String c a +++ " - " +++ t) with (String c (a +++ " - " +++ t)).
    cbn [partition].
    assert (Hno : String.prefix " - " (String c (a +++ " - " +++ t)) = false).
    { destruct (String.prefix " - " (String c (a +++ " - " +++ t))) eqn:E;
        [|reflexivity].
      apply prefix_cons in E as [<- E].
      destruct a as [|c' a].
      - change ("" +++ " - " +++ t) with (String " " ("- " +++ t)) in E.
        apply prefix_cons in E. destruct E as [E _]. inversion E.
      - cbn [String.append] in E. apply prefix_cons in E as [<- _].
        destruct a; cbn in Hpre; discriminate Hpre. }
    rewrite Hno, (IH Hin). reflexivity.
Qed.

End Partition.

Lemma extract_with_dash (text before after : string) :
  partition " - " text = Some (before, after) ->
  _extract_artist_and_title text = (PyStr.strip before, PyStr.strip after).
Proof.
  intros H. unfold _extract_artist_and_title, artist_dash_title, split_once.
  destruct (Partition.partition_some _ _ _ _ H) as [_ ->]. now rewrite H.
Qed.

Lemma extract_without_dash (text : string) :
  partition " - " text = None ->
  _extract_artist_and_title text = ("Unknown Artist", text).
Proof.
  intros H. unfold _extract_artist_and_title.
  rewrite (Partition.partition_none " - " text eq_refl H).
  now rewrite !andb_false_r.
Qed.

Lemma extract_artist_and_title_cases (text : string) :
  (exists before after,
      text = before +++ " - " +++ after
      /\ _extract_artist_and_title text
         = (PyStr.strip before, PyStr.strip after))
  \/ (PyStr.contains " - " text = false
      /\ _extract_artist_and_title text = ("Unknown Artist", text)).
Proof.
  destruct (partition " - " text) as [[before after]|] eqn:H.
  - left. exists before, after.
    split; [now apply Partition.partition_some in H|].
    now apply extract_with_dash.
  - right. split; [now apply Partition.partition_none|].
    now apply extract_without_dash.
Qed.

(** X16. [_extract_artist_and_title] has two outcomes only. When the text
    holds " - ", it is cut at the first one: the artist is the stripped text
    before it and the title the stripped text after it. Otherwise the artist
    is "Unknown Artist" and the title the whole text. The formats for
    mashups and for featured artists are never reached. *)
Theorem extract_artist_and_title_outcomes (text : string) :
  match partition " - " text with
  | Some (before, after) =>
      text = before +++ " - " +++ after
      /\ _extract_artist_and_title text
         = (PyStr.strip before, PyStr.strip after)
  | None =>
      PyStr.contains " - " text = false
      /\ _extract_artist_and_title text = ("Unknown Artist", text)
  end.
Proof.
  destruct (partition " - " text) as [[before after]|] eqn:H.
  - split; [now apply Partition.partition_some in H|].
    now apply extract_with_dash.
  - split; [now apply Partition.partition_none|].
    now apply extract_without_dash.
Qed.

(** X17. Reading back the line that [Track.__str__] prints gives the
    stripped artist and title of the track, provided the artist holds no
    " -". *)
Theorem extract_of_track_str (track : Track) :
  PyStr.contains " -" (artist track) = false ->
  _extract_artist_and_title (track_str track)
  = (PyStr.strip (artist track), PyStr.strip (title track)).
Proof.
  intros H. apply extract_with_dash. unfold track_str.
  now apply Partition.partition_after.
Qed.

Lemma extract_of_track_str_witness :
  PyStr.contains " -" (artist strobe_catalog) = false
  /\ _extract_artist_and_title (track_str strobe_catalog)
     = ("deadmau5", "Strobe").
Proof.
  split; [reflexivity|].
  apply (extract_of_track_str strobe_catalog). reflexivity.
Defined.

Module Blank.
Import PyStr PyStrFacts.

Lemma lstrip_shape (s : string) :
  lstrip s = "" \/ starts_not_space (lstrip s) = true.
Proof.
  induction s as [|c s IH]; [now left|]. cbn [lstrip].
  destruct (isspace c) eqn:Hc; [exact IH|].
  right. cbn. unfold not_space. now rewrite Hc.
Qed.

Lemma lstrip_empty (s : string) : lstrip s = "" -> all_chars isspace s = true.
Proof.
  induction s as [|c s IH]; [reflexivity|]. cbn [lstrip all_chars].
  destruct (isspace c); [exact IH | discriminate].
Qed.

Lemma rstrip_empty (s : string) : rstrip s = "" -> all_chars isspace s = true.
Proof.
  induction s as [|c s IH]; [reflexivity|]. cbn [rstrip all_chars].
  destruct (isspace c); cbn [andb]; [|discriminate].
  destruct (is_empty (rstrip s)) eqn:E; [|discriminate].
  intros _. apply IH. now apply is_empty_true.
Qed.

Lemma starts_not_space_not_blank (s : string) :
  starts_not_space s = true -> all_chars isspace s = false.
Proof.
  destruct s as [|c s]; [discriminate|]. cbn. unfold not_space.
  now destruct (isspace c).
Qed.

Lemma ends_not_space_not_blank (s : string) :
  ends_not_space s = true -> all_chars isspace s = false.
Proof.
  induction s as [|c s IH]; [discriminate|]. cbn [ends_not_space all_chars].
  destruct s as [|c' s].
  - unfold not_space. now destruct (isspace c).
  - intros H. rewrite (IH H). apply andb_false_r.
Qed.

Lemma strip_empty (s : string) : strip s = "" -> all_chars isspace s = true.
Proof.
  unfold strip. intros H. apply rstrip_empty in H.
  destruct (lstrip_shape s) as [E|E]; [now apply lstrip_empty|].
  apply starts_not_space_not_blank in E. congruence.
Qed.

Lemma blank_strip (s : string) : all_chars isspace s = true -> strip s = "".
Proof.
  intros H. unfold strip.
  assert (E : lstrip s = "").
  { induction s as [|c s IH]; [reflexivity|]. cbn [all_chars] in H.
    apply andb_prop in H as [Hc Hs]. cbn [lstrip]. rewrite Hc. now apply IH. }
  now rewrite E.
Qed.

Lemma not_blank_strip (s : string) :
  all_chars isspace s = false -> is_empty (strip s) = false.
Proof.
  intros H. destruct (strip s) eqn:E; [|reflexivity].
  apply strip_empty in E. congruence.
Qed.

Lemma rstrip_shape (s : string) :
  rstrip s = "" \/ ends_not_space (rstrip s) = true.
Proof.
  induction s as [|c s IH]; [now left|]. cbn [rstrip].
  destruct (isspace c) eqn:Hc; cbn [andb].
  - destruct (rstrip s) as [|c' r] eqn:E; [now left|]. right.
    cbn [is_empty]. destruct IH as [IH|IH]; [discriminate | exact IH].
  - right. destruct (rstrip s) as [|c' r] eqn:E.
    + cbn. unfold not_space. now rewrite Hc.
    + destruct IH as [IH|IH]; [discriminate | exact IH].
Qed.

Lemma rstrip_head (s : string) :
  starts_not_space s = true -> starts_not_space (rstrip s) = true.
Proof.
  destruct s as [|c s]; [discriminate|].
  cbn [starts_not_space rstrip]. unfold not_space. intros Hc.
  apply negb_true_iff in Hc. rewrite Hc. cbn [andb starts_not_space].
  unfold not_space. now rewrite Hc.
Qed.

(** A stripped text is empty or starts and ends with a character that is
    not whitespace. *)
Lemma strip_shape (s : string) :
  strip s = ""
  \/ (starts_not_space (strip s) = true /\ ends_not_space (strip s) = true).
Proof.
  unfold strip. destruct (rstrip_shape (lstrip s)) as [E|E]; [now left|].
  right. split; [|exact E].
  destruct (lstrip_shape s) as [E'|E']; [|now apply rstrip_head].
  rewrite E' in E. discriminate.
Qed.

Lemma collapse_from_blank (s : string) :
  forall b, all_chars isspace (collapse_from b s) = all_chars isspace s.
Proof.
  induction s as [|c s IH]; intros b; [reflexivity|].
  cbn [collapse_from all_chars].
  destruct (isspace c) eqn:Hc; [destruct b|]; cbn [all_chars andb].
  - apply IH.
  - change (isspace " ") with true. apply IH.
  - now rewrite Hc.
Qed.

Lemma ends_not_space_app (a b : string) :
  ends_not_space (a +++ b)
  = if is_empty b then ends_not_space a else ends_not_space b.
Proof.
  induction a as [|c a IH].
  - destruct b; reflexivity.
  - cbn [String.append]. destruct (a +++ b) as [|c' r] eqn:E.
    + destruct a; [|discriminate]. cbn in E. subst b. reflexivity.
    + change (ends_not_space (String c (String c' r)))
        with (ends_not_space (String c' r)).
      rewrite IH. destruct (is_empty b) eqn:Hb; [|reflexivity].
      destruct a as [|c'' a]; [|reflexivity].
      apply is_empty_true in Hb. subst b. discriminate E.
Qed.

End Blank.

(** X18. [_parse_track_line] gives nothing exactly for a line of fewer
    than 3 characters and for a line of whitespace only. Every other line
    gives a track with a non-empty artist and title, the source "manual"
    and the external id "manual_" followed by the track number. *)
Theorem parse_track_line_outcomes (line : string) (track_number : Z) :
  match _parse_track_line line track_number with
  | None =>
      (String.length line < 3)%nat \/ PyStr.all_chars PyStr.isspace line = true
  | Some track =>
      (3 <= String.length line)%nat
      /\ PyStr.all_chars PyStr.isspace line = false
      /\ PyStr.truthy (title track) = true
      /\ PyStr.truthy (artist track) = true
      /\ (artist track, title track)
         = _extract_artist_and_title (PyStr.strip (PyStr.collapse_ws line))
      /\ source track = "manual"
      /\ external_id track = Some ("manual_" +++ PyStr.of_int track_number)
  end.
Proof.
  unfold _parse_track_line.
  destruct (String.length line <? 3)%nat eqn:Hlen.
  { rewrite orb_true_r. left. now apply Nat.ltb_lt. }
  apply Nat.ltb_ge in Hlen. rewrite orb_false_r.
  destruct (PyStr.is_empty line) eqn:Hempty.
  { apply PyStrFacts.is_empty_true in Hempty. subst line. cbn in Hlen. lia. }
  cbv zeta. set (text := PyStr.strip (PyStr.collapse_ws line)).
  destruct (PyStr.all_chars PyStr.isspace line) eqn:Hblank.
  - assert (Htext : text = "").
    { apply Blank.blank_strip. unfold PyStr.collapse_ws.
      now rewrite Blank.collapse_from_blank. }
    rewrite Htext. cbn. now right.
  - assert (Hshape : PyStr.starts_not_space text = true
                     /\ PyStr.ends_not_space text = true).
    { destruct (Blank.strip_shape (PyStr.collapse_ws line)) as [E|E];
        [|exact E].
      apply Blank.strip_empty in E. unfold PyStr.collapse_ws in E.
      rewrite Blank.collapse_from_blank in E. congruence. }
    destruct Hshape as [Hstart Hend].
    pose proof (extract_artist_and_title_cases text) as Hcases.
    destruct (_extract_artist_and_title text) as [artist0 title0].
    assert (Hfull : PyStr.is_empty artist0 = false
                    /\ PyStr.is_empty title0 = false).
    { destruct Hcases as [(before & after & Htext & Hpair)|[_ Hpair]];
        injection Hpair as -> ->.
      - rewrite Htext in Hstart, Hend. split.
        + apply Blank.not_blank_strip, Blank.starts_not_space_not_blank.
          destruct before; [discriminate Hstart | exact Hstart].
        + apply Blank.not_blank_strip, Blank.ends_not_space_not_blank.
          rewrite !Blank.ends_not_space_app in Hend.
          destruct after; [discriminate Hend | exact Hend].
      - split; [reflexivity|]. now destruct text. }
    destruct Hfull as [Ha Ht]. rewrite Ha, Ht. cbn [orb].
    cbn [title artist source external_id]. unfold PyStr.truthy.
    rewrite Ha, Ht. repeat split; try reflexivity. exact Hlen.
Qed.

(** ** The requests of the cascade *)

Section Requests.

Variable self : SpotifyProvider.

Lemma ret_none_issues_text :
  issues (Forall text_request) (@ret (option (list Track)) None).
Proof.
  intros log found log' H. injection H as <- <-. exists [].
  split; [now rewrite List.app_nil_r | constructor].
Qed.

Lemma try_queries_issues_text
      (accept : list Track -> option (list Track)) (queries : list string) :
  issues (Forall text_request) (try_queries self accept queries).
Proof.
  induction queries as [|query rest IH]; [apply ret_none_issues_text|].
  intros log found log' H. cbn [try_queries] in H.
  unfold bind, session_get in H.
  set (req := mkRequest query "track" 50) in *.
  assert (Hreq : text_request req) by now split.
  assert (Hrest : forall found log',
             try_queries self accept rest (log ++ [req]) = (found, log') ->
             exists new, log' = log ++ new /\ Forall text_request new).
  { intros found0 log0 H0. destruct (IH _ _ _ H0) as (new & -> & Hnew).
    exists (req :: new). split; [now rewrite <- List.app_assoc|].
    now constructor. }
  destruct (session self log req) as [answer|]; [|exact (Hrest _ _ H)].
  destruct (accept answer); [|exact (Hrest _ _ H)].
  unfold ret in H. injection H as <- <-. exists [req]. split; [reflexivity|].
  now constructor.
Qed.

Lemma or_else_issues (first_shape : list Request -> Prop)
      (m1 m2 : Search (option (list Track))) :
  (forall new1 new2, first_shape new1 -> Forall text_request new2 ->
                     first_shape (new1 ++ new2)) ->
  issues first_shape m1 -> issues (Forall text_request) m2 ->
  issues first_shape (m1 <||> m2).
Proof.
  intros Hshape H1 H2 log found log' H. unfold or_else in H.
  destruct (m1 log) as [[a|] log1] eqn:E1.
  - injection H as <- <-. now apply H1 in E1.
  - destruct (H1 _ _ _ E1) as (new1 & -> & Hnew1).
    destruct (H2 _ _ _ H) as (new2 & -> & Hnew2).
    exists (new1 ++ new2). split; [now rewrite List.app_assoc|].
    now apply Hshape.
Qed.

Lemma cascade_requests_app (track : Track) (new1 new2 : list Request) :
  cascade_requests track new1 -> Forall text_request new2 ->
  cascade_requests track (new1 ++ new2).
Proof.
  intros [H1|(code & rest & Hisrc & Hcode & -> & Hrest)] H2.
  - left. apply Forall_app. now split.
  - right. exists code, (rest ++ new2). repeat split; try assumption.
    apply Forall_app. now split.
Qed.

Lemma isrc_lookup_issues (track : Track) :
  issues (cascade_requests track) (isrc_lookup self track).
Proof.
  intros log found log' H. unfold isrc_lookup in H.
  destruct (isrc track) as [code|] eqn:Hisrc.
  - destruct (PyStr.truthy code) eqn:Hcode.
    + unfold bind, _search_by_isrc, bind, session_get, ret in H.
      fold (isrc_request code) in H.
      exists [isrc_request code]. split.
      * destruct (session self log (isrc_request code)) as [answer|];
          cbn in H; [destruct (non_empty answer)|]; now injection H as <- <-.
      * right. exists code, []. repeat split; try assumption. constructor.
    + injection H as <- <-. exists [].
      split; [now rewrite List.app_nil_r | left; constructor].
  - injection H as <- <-. exists [].
    split; [now rewrite List.app_nil_r | left; constructor].
Qed.

Lemma cascade_issues (track : Track) :
  issues (cascade_requests track)
    (isrc_lookup self track <||> extended_fast_path self track
     <||> enhanced_search self track <||> per_artist_fallback self track
     <||> extended_base_retry self track <||> trimmed_mix_retry self track
     <||> last_resort self track).
Proof.
  repeat (apply or_else_issues; [apply cascade_requests_app | |]).
  - apply isrc_lookup_issues.
  - unfold extended_fast_path.
    destruct (is_extended track); [|apply ret_none_issues_text].
    destruct (negb _); [|apply ret_none_issues_text].
    apply try_queries_issues_text.
  - apply try_queries_issues_text.
  - apply try_queries_issues_text.
  - unfold extended_base_retry.
    destruct (is_extended track); [|apply ret_none_issues_text].
    destruct (negb _); [|apply ret_none_issues_text].
    apply try_queries_issues_text.
  - unfold trimmed_mix_retry.
    destruct (mix_name track) as [mix|]; [|apply ret_none_issues_text].
    destruct (PyStr.truthy mix); [|apply ret_none_issues_text].
    cbv zeta. destruct (negb _); [|apply ret_none_issues_text].
    apply try_queries_issues_text.
  - apply try_queries_issues_text.
Qed.

(** X19. The requests of [search_track] are searches for tracks with limit
    50, after at most one ISRC lookup: the lookup is the first request and
    is issued only for a track with a non-empty isrc, so a track without
    isrc never triggers one. *)
Theorem search_track_requests (track : Track) (log : list Request) :
  exists new,
    snd (search_track self track log) = log ++ new
    /\ cascade_requests track new.
Proof.
  unfold search_track.
  destruct (negb (truthy_str (access_token self))).
  - exists []. split; [now rewrite List.app_nil_r | left; constructor].
  - cbv zeta. fold (repaired track). unfold bind at 1.
    pose proof (cascade_issues (repaired track) log) as H.
    match goal with
    | |- context [let '(a, log') := ?m log in _] =>
        destruct (m log) as [found log'] eqn:E
    end.
    destruct (H _ _ eq_refl) as (new & -> & Hnew). exists new.
    split; [reflexivity|].
    destruct Hnew as [Hnew|(code & rest & Hisrc & Hrest)]; [now left|].
    right. exists code, rest. now rewrite <- repaired_isrc.
Qed.

End Requests.

(** ** The score and the normalizer *)

(** X20. The score depends on the normalized title and artist only: two
    pairs of tracks whose titles and artists normalize to the same texts
    get the same score, so letter case, spacing and stop words play no part
    in it. *)
Theorem score_reads_normalized_text (ratio : string -> string -> float)
        (a a' b b' : Track) :
  normalize_text (title a) = normalize_text (title a') ->
  normalize_text (artist a) = normalize_text (artist a') ->
  normalize_text (title b) = normalize_text (title b') ->
  normalize_text (artist b) = normalize_text (artist b') ->
  calculate_track_similarity ratio a b = calculate_track_similarity ratio a' b'.
Proof.
  intros Hta Haa Htb Hab. rewrite !score_reads_title_and_artist.
  now rewrite Hta, Haa, Htb, Hab.
Qed.

Lemma score_reads_normalized_text_witness :
  calculate_track_similarity fuzz_ratio
    (plain_track "The  STROBE" "Deadmau5") strobes_other
  = calculate_track_similarity fuzz_ratio strobe
      (plain_track "strobes" "a DEADMAUS").
Proof.
  apply (score_reads_normalized_text fuzz_ratio
           (plain_track "The  STROBE" "Deadmau5") strobe strobes_other
           (plain_track "strobes" "a DEADMAUS")); reflexivity.
Defined.

(** ** The identity preference *)

Module Substring.
Import PyStr PyStrFacts.

Lemma prefix_contains (w s : string) :
  String.prefix w s = true -> contains w s = true.
Proof. intros H. destruct s; cbn [contains]; now rewrite H. Qed.

Lemma contains_decompose (w s : string) :
  contains w s = true -> exists pre post, s = pre +++ w +++ post.
Proof.
  induction s as [|c s IH]; intros H.
  - cbn [contains] in H. rewrite orb_false_r in H.
    destruct w; [|discriminate]. now exists "", "".
  - cbn [contains] in H. apply orb_true_iff in H as [H|H].
    + exists "", (drop (String.length w) (String c s)).
      now apply Partition.prefix_drop.
    + destruct (IH H) as (pre & post & ->). now exists (String c pre), post.
Qed.

Lemma contains_compose (w pre post : string) :
  contains w (pre +++ w +++ post) = true.
Proof.
  apply contains_app_r, PyStrMore.contains_app_l, PyStrMore.contains_refl.
Qed.

Lemma contains_trans (a b c : string) :
  contains a b = true -> contains b c = true -> contains a c = true.
Proof.
  intros Hab Hbc.
  destruct (contains_decompose _ _ Hab) as (p1 & q1 & ->).
  destruct (contains_decompose _ _ Hbc) as (p2 & q2 & ->).
  rewrite !app_assoc, <- (app_assoc p2 p1). apply contains_compose.
Qed.

Lemma contains_lower (a b : string) :
  contains a b = true -> contains (lower a) (lower b) = true.
Proof.
  intros H. destruct (contains_decompose _ _ H) as (pre & post & ->).
  rewrite !lower_app. apply contains_compose.
Qed.

Lemma contains_lstrip_self (s : string) : contains (lstrip s) s = true.
Proof.
  induction s as [|c s IH]; [reflexivity|]. cbn [lstrip].
  destruct (isspace c); [|apply PyStrMore.contains_refl].
  cbn [contains]. rewrite IH. apply orb_true_r.
Qed.

Lemma prefix_rstrip_self (s : string) : String.prefix (rstrip s) s = true.
Proof.
  induction s as [|c s IH]; [reflexivity|]. cbn [rstrip].
  destruct (isspace c && is_empty (rstrip s)); [reflexivity|].
  now apply prefix_cons_same.
Qed.

Lemma contains_strip_self (s : string) : contains (strip s) s = true.
Proof.
  unfold strip. apply (contains_trans _ (lstrip s)); [|apply contains_lstrip_self].
  apply prefix_contains, prefix_rstrip_self.
Qed.

Lemma split_class_pieces (p : ascii -> bool) (s : string) :
  String.prefix (fst (split_class_from p s)) s = true
  /\ Forall (fun piece => contains piece s = true) (snd (split_class_from p s)).
Proof.
  induction s as [|c s IH]; [split; [reflexivity | constructor]|].
  cbn [split_class_from].
  destruct (split_class_from p s) as [h t]. cbn [fst snd] in IH.
  destruct IH as [Hh Ht].
  assert (Hlater : Forall (fun piece => contains piece (String c s) = true) t).
  { eapply Forall_impl; [|exact Ht]. cbv beta. intros piece Hpiece.
    cbn [contains]. rewrite Hpiece. apply orb_true_r. }
  destruct (p c); cbn [fst snd].
  - split; [reflexivity|]. constructor; [|exact Hlater].
    cbn [contains]. rewrite (prefix_contains _ _ Hh). apply orb_true_r.
  - split; [now apply prefix_cons_same | exact Hlater].
Qed.

Lemma split_class_contained (p : ascii -> bool) (s piece : string) :
  In piece (split_class p s) -> contains piece s = true.
Proof.
  unfold split_class. pose proof (split_class_pieces p s) as [Hh Ht].
  destruct (split_class_from p s) as [h t]. cbn [fst snd] in *.
  intros [<-|Hin].
  - now apply prefix_contains.
  - rewrite Forall_forall in Ht. now apply Ht.
Qed.

End Substring.

Lemma split_artists_contained (artist name : string) :
  In name (split_artists artist) -> PyStr.contains name artist = true.
Proof.
  unfold split_artists. intros H. apply filter_In in H as [H _].
  apply in_map_iff in H as (piece & <- & Hpiece).
  apply (Substring.contains_trans _ piece).
  - apply Substring.contains_strip_self.
  - now apply Substring.split_class_contained in Hpiece.
Qed.

(** X21. A candidate with the artist string of the source track and the
    same title, up to letter case, outer whitespace and a parenthesized
    suffix, is always preferred, provided the artist string names an
    artist. *)
Theorem prefer_same_title_and_artist (candidates : list Track)
        (tracklist_track cand : Track) :
  In cand candidates ->
  normalize_title (title cand) = normalize_title (title tracklist_track) ->
  artist cand = artist tracklist_track ->
  non_empty (split_artists (artist tracklist_track)) = true ->
  In cand (_prefer_exact_title_and_artist candidates tracklist_track).
Proof.
  intros Hin Htitle Hartist Hnames.
  unfold _prefer_exact_title_and_artist. cbv zeta.
  apply filter_In. split; [exact Hin|].
  rewrite Htitle, String.eqb_refl. cbn [andb].
  destruct (split_artists (artist tracklist_track)) as [|name names] eqn:E;
    [discriminate|].
  apply existsb_exists. exists (PyStr.lower name).
  split; [now left|].
  rewrite Hartist. apply Substring.contains_lower.
  apply split_artists_contained. rewrite E. now left.
Qed.

Lemma prefer_same_title_and_artist_witness :
  In (plain_track "1973 (Extended Mix)" "Sultan + Shepard, Colyn")
     (_prefer_exact_title_and_artist
        [strobe_catalog;
         plain_track "1973 (Extended Mix)" "Sultan + Shepard, Colyn"]
        (plain_track "1973" "Sultan + Shepard, Colyn")).
Proof.
  apply (prefer_same_title_and_artist
           [strobe_catalog;
            plain_track "1973 (Extended Mix)" "Sultan + Shepard, Colyn"]
           (plain_track "1973" "Sultan + Shepard, Colyn")
           (plain_track "1973 (Extended Mix)" "Sultan + Shepard, Colyn"));
    [right; now left | reflexivity | reflexivity | reflexivity].
Defined.

(** ** The trimmed mix name *)

(** X22. Trimming the length qualifiers never loses the remix: a mix name
    that contains "remix" in any letter case is trimmed to one that still
    contains it, although qualifiers are cut out of the middle of the name
    and whitespace is rearranged. *)
Theorem trimmed_mix_keeps_remix (mix_name : string) :
  PyStr.contains "remix" (PyStr.lower mix_name) = true ->
  PyStr.contains "remix" (PyStr.lower (_strip_length_qualifiers mix_name))
  = true.
Proof.
  intros Hremix. unfold _strip_length_qualifiers.
  destruct (PyStr.is_empty mix_name); [exact Hremix|].
  cbv zeta. rewrite Hremix. cbn [andb].
  set (out := PyStr.join " " (PyStr.split _)).
  destruct (PyStr.contains "remix" (PyStr.lower out)) eqn:Hout; cbn [negb].
  - rewrite PyStrFacts.lower_strip.
    now apply PyStrFacts.contains_strip.
  - rewrite !PyStrFacts.lower_strip.
    do 2 (apply PyStrFacts.contains_strip; [reflexivity|reflexivity|]).
    rewrite PyStrFacts.lower_app. now apply PyStrFacts.contains_app_r.
Qed.

Lemma trimmed_mix_keeps_remix_witness :
  PyStr.contains "remix" (PyStr.lower "Dubfire Extended REMIX") = true
  /\ PyStr.contains "remix"
       (PyStr.lower (_strip_length_qualifiers "Dubfire Extended REMIX"))
     = true.
Proof.
  split; [reflexivity|].
  apply (trimmed_mix_keeps_remix "Dubfire Extended REMIX"). reflexivity.
Defined.
